(** * sbvtovtt: SBV to WebVTT conversion with whole-word italics

    Shallow embedding of [functions/api/convert.ts], the whole-word version
    of the converter.  The older version of the file, which wraps plain
    substrings, has the same [normalizeHour], [escapeHtml] and parser loop;
    it is not modelled apart.

    Strings are [String.string]; one [ascii] stands for one UTF-16 code unit
    in the range U+0000..U+00FF (the Latin-1 block), so every input whose
    code units are below 256 is covered.  On that range a code unit is a
    code point, [String.prototype.length] is [String.length], and the
    Unicode tables the regular expressions consult (letters, numbers, white
    space, simple case folding) are the finite tables written out below.

    Loops whose termination is not structural take fuel and answer in the
    [result] monad; the theorems show that the fuel the callers pass is
    always enough. *)

From Stdlib Require Import Strings.String Strings.Ascii Lists.List.
From Stdlib Require Import Arith.Arith Bool.Bool micromega.Lia.
From Stdlib Require Import Sorting.Sorted Sorting.Permutation.
Import ListNotations.

Open Scope list_scope.
Open Scope string_scope.

(** ** Outcomes *)

(** [Ok v]: the call returned [v].  [Fail]: the call threw (the only
    throwing primitive of the file is [new RegExp]).  [OutOfFuel]: the model
    stopped a loop before the code would have. *)
Inductive result (A : Type) : Type :=
| Ok (a : A)
| Fail
| OutOfFuel.

Arguments Ok {A} a.
Arguments Fail {A}.
Arguments OutOfFuel {A}.

Definition bind {A B : Type} (r : result A) (k : A -> result B) : result B :=
  match r with
  | Ok a => k a
  | Fail => Fail
  | OutOfFuel => OutOfFuel
  end.

Notation "x <- r ;; k" := (bind r (fun x => k))
  (at level 61, r at next level, right associativity).

Fixpoint mapM {A B : Type} (f : A -> result B) (l : list A) : result (list B) :=
  match l with
  | [] => Ok []
  | a :: l' => b <- f a ;; bs <- mapM f l' ;; Ok (b :: bs)
  end.

(** ** Characters *)

Definition TAB : ascii := "009"%char.
Definition LF : ascii := "010"%char.
Definition CR : ascii := "013"%char.
Definition DQUOTE : ascii := "034"%char.
Definition BACKSLASH : ascii := "\"%char.

Definition NL : string := String LF EmptyString.

Definition inRange (lo hi : nat) (c : ascii) : bool :=
  let n := nat_of_ascii c in ((lo <=? n) && (n <=? hi))%nat.

Definition isCode (k : nat) (c : ascii) : bool := (nat_of_ascii c =? k)%nat.

(** [\d] without the [u] or [i] flag: the ten ASCII digits. *)
Definition isDigit (c : ascii) : bool := inRange 48 57 c.

(** ECMAScript WhiteSpace and LineTerminator below U+0100: TAB, LF, VT, FF,
    CR, SP and NBSP.  This is the set of [trim], [trimEnd] and [\s]. *)
Definition isWhiteSpace (c : ascii) : bool :=
  inRange 9 13 c || isCode 32 c || isCode 160 c.

(** [.] without the [s] flag: anything but a line terminator.  Of the four
    line terminators, LF and CR lie below U+0100; U+2028 and U+2029 lie
    above it. *)
Definition isDotCh (c : ascii) : bool := negb (isCode 10 c || isCode 13 c).

(** [[\p{L}\p{N}]] (WORD_CH) below U+0100: general categories L* and N*. *)
Definition isWordCh (c : ascii) : bool :=
  inRange 48 57 c || inRange 65 90 c || inRange 97 122 c
  || isCode 170 c || isCode 178 c || isCode 179 c || isCode 181 c
  || isCode 185 c || isCode 186 c || inRange 188 190 c
  || inRange 192 214 c || inRange 216 246 c || inRange 248 255 c.

(** [[^\p{L}\p{N}]] (NOT_WORD_CH). *)
Definition isNotWordCh (c : ascii) : bool := negb (isWordCh c).

(** Canonicalize of the [iu] flags (simple case folding) below U+0100.
    U+00B5 folds outside the range and to nothing inside it, so it stays. *)
Definition canonicalize (c : ascii) : ascii :=
  if inRange 65 90 c || (inRange 192 222 c && negb (isCode 215 c))
  then ascii_of_nat (nat_of_ascii c + 32)
  else c.

(** ** String primitives *)

Fixpoint take (n : nat) (s : string) : string :=
  match n, s with
  | S n', String c s' => String c (take n' s')
  | _, _ => EmptyString
  end.

Fixpoint drop (n : nat) (s : string) : string :=
  match n, s with
  | S n', String _ s' => drop n' s'
  | _, _ => s
  end.

(** [s.slice(a, b)] for [0 <= a] and [0 <= b]; JS clamps both ends to the
    length and answers the empty string when [b <= a]. *)
Definition slice (a b : nat) (s : string) : string := take (b - a) (drop a s).

(** [s.slice(a)]. *)
Definition sliceFrom (a : nat) (s : string) : string := drop a s.

Fixpoint allb (p : ascii -> bool) (s : string) : bool :=
  match s with
  | EmptyString => true
  | String c s' => p c && allb p s'
  end.

Fixpoint dropWhile (p : ascii -> bool) (s : string) : string :=
  match s with
  | EmptyString => EmptyString
  | String c s' => if p c then dropWhile p s' else s
  end.

Fixpoint takeWhile (p : ascii -> bool) (s : string) : string :=
  match s with
  | EmptyString => EmptyString
  | String c s' => if p c then String c (takeWhile p s') else EmptyString
  end.

(** [s.trimEnd()]: a character is kept when something other than white space
    follows it or it is not white space itself. *)
Fixpoint trimEnd (s : string) : string :=
  match s with
  | EmptyString => EmptyString
  | String c s' =>
      match trimEnd s' with
      | EmptyString => if isWhiteSpace c then EmptyString else String c EmptyString
      | t => String c t
      end
  end.

(** [s.trim()]. *)
Definition trim (s : string) : string := trimEnd (dropWhile isWhiteSpace s).

Definition isEmpty (s : string) : bool :=
  match s with EmptyString => true | _ => false end.

Fixpoint repeatCh (n : nat) (c : ascii) : string :=
  match n with
  | 0 => EmptyString
  | S n' => String c (repeatCh n' c)
  end.

(** [s.padStart(targetLength, c)] for a one-character filler. *)
Definition padStart (targetLength : nat) (c : ascii) (s : string) : string :=
  repeatCh (targetLength - String.length s) c ++ s.

(** [parts.join(sep)]. *)
Definition join (sep : string) (parts : list string) : string :=
  String.concat sep parts.

(** [s.startsWith(p)]. *)
Fixpoint startsWith (p s : string) : bool :=
  match p with
  | EmptyString => true
  | String a p' =>
      match s with
      | EmptyString => false
      | String b s' => Ascii.eqb a b && startsWith p' s'
      end
  end.

(** ** normalizeHour *)

(** [ts.match(/^(\d+):(\d{2}):(\d{2}\.\d{3})$/)]: the groups 1, 2 and 3.
    The greedy [\d+] can only end at the end of the run of digits, since
    the next pattern character is a colon. *)
Definition matchTimestamp (ts : string) : option (string * string * string) :=
  let h := takeWhile isDigit ts in
  let r := drop (String.length h) ts in
  if isEmpty h then None else
  match r with
  | String c0 (String m1 (String m2 (String c1
      (String s1 (String s2 (String dot
        (String f1 (String f2 (String f3 EmptyString))))))))) =>
      if Ascii.eqb c0 ":" && isDigit m1 && isDigit m2 && Ascii.eqb c1 ":"
         && isDigit s1 && isDigit s2 && Ascii.eqb dot "."
         && isDigit f1 && isDigit f2 && isDigit f3
      then Some (h, String m1 (String m2 EmptyString),
                 String s1 (String s2 (String dot
                   (String f1 (String f2 (String f3 EmptyString))))))
      else None
  | _ => None
  end.

Definition normalizeHour (ts : string) : string :=
  match matchTimestamp ts with
  | None => ts
  | Some (m1, m2, m3) =>
      let h := padStart 2 "0" m1 in
      h ++ ":" ++ m2 ++ ":" ++ m3
  end.

(** ** escapeHtml and escapeRegex *)

Definition htmlEntity (c : ascii) : option string :=
  if Ascii.eqb c "&" then Some "&amp;"
  else if Ascii.eqb c "<" then Some "&lt;"
  else if Ascii.eqb c ">" then Some "&gt;"
  else if Ascii.eqb c DQUOTE then Some "&quot;"
  else if Ascii.eqb c "'" then Some "&#039;"
  else None.

(** [s.replace(re, c => table[c])], where [re] is the global class of the
    five characters ampersand, less-than, greater-than, double quote and
    apostrophe and [table] is [htmlEntity]. *)
Fixpoint escapeHtml (s : string) : string :=
  match s with
  | EmptyString => EmptyString
  | String c s' =>
      match htmlEntity c with
      | Some e => e ++ escapeHtml s'
      | None => String c (escapeHtml s')
      end
  end.

(** The class [[.*+?^${}()|[\]\\]] of [escapeRegex]. *)
Definition isRegexMeta (c : ascii) : bool :=
  Ascii.eqb c "." || Ascii.eqb c "*" || Ascii.eqb c "+" || Ascii.eqb c "?"
  || Ascii.eqb c "^" || Ascii.eqb c "$" || Ascii.eqb c "{" || Ascii.eqb c "}"
  || Ascii.eqb c "(" || Ascii.eqb c ")" || Ascii.eqb c "|" || Ascii.eqb c "["
  || Ascii.eqb c "]" || Ascii.eqb c BACKSLASH.

(** [s.replace(re, r)] with [re] the global class above and [r] a backslash
    followed by the matched text: a backslash goes before every character
    of the class. *)
Fixpoint escapeRegex (s : string) : string :=
  match s with
  | EmptyString => EmptyString
  | String c s' =>
      if isRegexMeta c then String BACKSLASH (String c (escapeRegex s'))
      else String c (escapeRegex s')
  end.

(** ** The phrase matcher: pattern text *)

Definition WORD_CH : string := "[\p{L}\p{N}]".
Definition NOT_WORD_CH : string := "[^\p{L}\p{N}]".

(** The replacement text [String.raw`\s+`]: backslash, s, plus. *)
Definition RAW_WS_PLUS : string := "\s+".

(** [p.replace(/\s+/g, RAW_WS_PLUS)]: every maximal run of white space
    becomes the three characters of [RAW_WS_PLUS]; [inRun] tells that the
    previous character already belonged to the run being replaced. *)
Fixpoint replaceWsRuns (inRun : bool) (s : string) : string :=
  match s with
  | EmptyString => EmptyString
  | String c s' =>
      if isWhiteSpace c
      then (if inRun then replaceWsRuns true s'
            else RAW_WS_PLUS ++ replaceWsRuns true s')
      else String c (replaceWsRuns false s')
  end.

(** [s.replace(/\\s\+/g, RAW_WS_PLUS)].  The pattern is an escaped backslash,
    the letter s and an escaped plus: it matches the three characters
    backslash, s, plus in a row, and each such occurrence is replaced by
    [RAW_WS_PLUS]. *)
Fixpoint undoEscapedWs (s : string) : string :=
  match s with
  | EmptyString => EmptyString
  | String c s' =>
      match s' with
      | String d (String e r) =>
          if Ascii.eqb c BACKSLASH && Ascii.eqb d "s" && Ascii.eqb e "+"
          then RAW_WS_PLUS ++ undoEscapedWs r
          else String c (undoEscapedWs s')
      | _ => String c (undoEscapedWs s')
      end
  end.

(** The callback of [sorted.map]: one alternative of the pattern. *)
Definition phraseAlt (p : string) : string :=
  let norm := replaceWsRuns false (trim p) in
  undoEscapedWs (escapeRegex norm).

(** [[...phrases].sort((a, b) => b.length - a.length)].  [Array.prototype.sort]
    is stable; the comparator is negative exactly when [a] is longer, so [a]
    stays before [b] unless [b] is strictly longer.  Written as the stable
    insertion sort. *)
Fixpoint insertByLength (a : string) (l : list string) : list string :=
  match l with
  | [] => [a]
  | b :: l' =>
      if (String.length b <=? String.length a)%nat then a :: b :: l'
      else b :: insertByLength a l'
  end.

Fixpoint sortLongestFirst (l : list string) : list string :=
  match l with
  | [] => []
  | a :: l' => insertByLength a (sortLongestFirst l')
  end.

Definition PATTERN_HEAD : string := "(^|" ++ NOT_WORD_CH ++ ")(".
Definition PATTERN_TAIL : string := "(?=$|" ++ NOT_WORD_CH ++ ")".

(** The template literal of [buildItalicsRegex]. *)
Definition italicsPattern (phrases : list string) : string :=
  let sorted := sortLongestFirst phrases in
  let alts := map phraseAlt sorted in
  PATTERN_HEAD ++ join "|" alts ++ ")" ++ PATTERN_TAIL.

(** ** The phrase matcher: compiled form *)

(** The part of the ECMAScript pattern grammar (flag [u]) that an alternative
    can use: a pattern character, an identity escape of a syntax character
    or of the slash, the class escape [\s], each optionally followed by the
    greedy quantifier [+]. *)
Inductive Atom : Type :=
| Lit (c : ascii)
| WhiteSpaceClass.

Record Term : Type := mkTerm { atom : Atom; plus : bool }.

(** A compiled [(^|NOT_WORD_CH)(alt1|...|altn)(?=$|NOT_WORD_CH)] with the
    flags [giu]. *)
Record RegExp : Type := mkRegExp { alternatives : list (list Term) }.

(** SyntaxCharacter of the pattern grammar. *)
Definition isSyntaxCh (c : ascii) : bool :=
  Ascii.eqb c "^" || Ascii.eqb c "$" || Ascii.eqb c BACKSLASH
  || Ascii.eqb c "." || Ascii.eqb c "*" || Ascii.eqb c "+" || Ascii.eqb c "?"
  || Ascii.eqb c "(" || Ascii.eqb c ")" || Ascii.eqb c "[" || Ascii.eqb c "]"
  || Ascii.eqb c "{" || Ascii.eqb c "}" || Ascii.eqb c "|".

(** Parses the alternatives of the second group up to its closing
    parenthesis; [cur] holds the terms of the current alternative and [done]
    the finished alternatives, both newest first.  Answers the alternatives
    and the text after the parenthesis, or [None] where the text leaves the
    grammar above. *)
Fixpoint parseAlts (s : string) (cur : list Term) (done : list (list Term))
  : option (list (list Term) * string) :=
  match s with
  | EmptyString => None
  | String c s' =>
      if Ascii.eqb c ")" then Some (rev (rev cur :: done), s')
      else if Ascii.eqb c "|" then parseAlts s' [] (rev cur :: done)
      else if Ascii.eqb c BACKSLASH then
        match s' with
        | EmptyString => None
        | String d s'' =>
            if isSyntaxCh d || Ascii.eqb d "/"
            then parseAlts s'' (mkTerm (Lit d) false :: cur) done
            else if Ascii.eqb d "s"
            then parseAlts s'' (mkTerm WhiteSpaceClass false :: cur) done
            else None
        end
      else if Ascii.eqb c "+" then
        match cur with
        | mkTerm a false :: cur' => parseAlts s' (mkTerm a true :: cur') done
        | _ => None
        end
      else if isSyntaxCh c then None
      else parseAlts s' (mkTerm (Lit c) false :: cur) done
  end.

(** [new RegExp(pattern, "giu")] for patterns of the shape that
    [buildItalicsRegex] writes; [Fail] for any other text, which covers
    every SyntaxError. *)
Definition newRegExp (pattern : string) : result RegExp :=
  if startsWith PATTERN_HEAD pattern then
    match parseAlts (drop (String.length PATTERN_HEAD) pattern) [] [] with
    | Some (alts, rest) =>
        if String.eqb rest PATTERN_TAIL then Ok (mkRegExp alts) else Fail
    | None => Fail
    end
  else Fail.

(** [null] is [None]. *)
Definition buildItalicsRegex (phrases : list string) : result (option RegExp) :=
  match phrases with
  | [] => Ok None
  | _ => re <- newRegExp (italicsPattern phrases) ;; Ok (Some re)
  end.

(** [italicsText.split(/\r?\n/)]. *)
Fixpoint splitLines (s : string) : list string :=
  match s with
  | EmptyString => [EmptyString]
  | String c s' =>
      if Ascii.eqb c LF then EmptyString :: splitLines s'
      else if Ascii.eqb c CR && startsWith NL s' then splitLines s'
      else match splitLines s' with
           | h :: t => String c h :: t
           | [] => [String c EmptyString]
           end
  end.

Definition buildItalicsList (italicsText : string) : list string :=
  filter (fun s => negb (isEmpty s)) (map trim (splitLines italicsText)).

(** ** The phrase matcher: matching *)

(** One character against one atom under the flags [iu]. *)
Definition atomMatches (a : Atom) (c : ascii) : bool :=
  match a with
  | Lit l => Ascii.eqb (canonicalize l) (canonicalize c)
  | WhiteSpaceClass => isWhiteSpace c
  end.

(** The lengths of the prefixes of [s] that a sequence of terms matches, in
    the order backtracking tries them: a greedy [+] tries the longest run
    first and gives characters back one at a time. *)
Fixpoint matchTerms (ts : list Term) (s : string) : list nat :=
  match ts with
  | [] => [0]
  | mkTerm a false :: ts' =>
      match s with
      | EmptyString => []
      | String c s' => if atomMatches a c then map S (matchTerms ts' s') else []
      end
  | mkTerm a true :: ts' =>
      let n := String.length (takeWhile (atomMatches a) s) in
      flat_map (fun k => map (Nat.add k) (matchTerms ts' (drop k s)))
               (rev (seq 1 n))
  end.

(** The lookahead [(?=$|NOT_WORD_CH)] at the text [rest] that follows. *)
Definition lookahead (rest : string) : bool :=
  match rest with
  | EmptyString => true
  | String c _ => isNotWordCh c
  end.

(** The second group followed by the lookahead, at [s]: the length of the
    first candidate, alternatives left to right, that the lookahead
    accepts. *)
Definition matchPhrase (re : RegExp) (s : string) : option nat :=
  find (fun k => lookahead (drop k s))
       (flat_map (fun alt => matchTerms alt s) (alternatives re)).

(** The whole pattern at index [i], where [suffix] is the text from [i] on:
    groups 1 and 2.  The first group tries [^] (index 0 only, no [m] flag)
    and then one NOT_WORD_CH character. *)
Definition matchAt (re : RegExp) (i : nat) (suffix : string)
  : option (string * string) :=
  match (if (i =? 0)%nat then matchPhrase re suffix else None) with
  | Some k => Some (EmptyString, take k suffix)
  | None =>
      match suffix with
      | EmptyString => None
      | String c rest =>
          if isNotWordCh c then
            match matchPhrase re rest with
            | Some k => Some (String c EmptyString, take k rest)
            | None => None
            end
          else None
      end
  end.

(** One element of the iterator of [matchAll]: [match.index], [match[1]]
    and [match[2]]; [match[0]] is [fullMatch]. *)
Record MatchResult : Type :=
  mkMatch { index : nat; leftBoundary : string; phrase : string }.

Definition fullMatch (m : MatchResult) : string := leftBoundary m ++ phrase m.

(** RegExpBuiltinExec from index [i]: the first index from [i] up to the
    length, inclusive, at which the pattern matches. *)
Fixpoint execFrom (re : RegExp) (i : nat) (suffix : string) : option MatchResult :=
  match matchAt re i suffix with
  | Some (b, p) => Some (mkMatch i b p)
  | None =>
      match suffix with
      | EmptyString => None
      | String _ rest => execFrom re (S i) rest
      end
  end.

Definition regExpExec (re : RegExp) (s : string) (lastIndex : nat)
  : option MatchResult :=
  if (String.length s <? lastIndex)%nat then None
  else execFrom re lastIndex (drop lastIndex s).

(** The iterator of [s.matchAll(re)] run to its end from [lastIndex]: after
    a match the search resumes where the match ended, one further when the
    match was empty. *)
Fixpoint matchAllFrom (fuel : nat) (re : RegExp) (s : string) (lastIndex : nat)
  : result (list MatchResult) :=
  match fuel with
  | 0 => OutOfFuel
  | S fuel' =>
      match regExpExec re s lastIndex with
      | None => Ok []
      | Some m =>
          let e := index m + String.length (fullMatch m) in
          let next := if isEmpty (fullMatch m) then S e else e in
          ms <- matchAllFrom fuel' re s next ;; Ok (m :: ms)
      end
  end.

Definition matchAll (re : RegExp) (s : string) : result (list MatchResult) :=
  matchAllFrom (String.length s + 2) re s 0.

(** ** italicizeLineWholeWords *)

(** The body of the [for ... of] loop on the state [(out, last)]. *)
Definition italicizeStep (rawLine : string) (st : string * nat) (m : MatchResult)
  : string * nat :=
  let '(out, last) := st in
  let startIdx := index m in
  let phraseStart := startIdx + String.length (leftBoundary m) in
  let phraseEnd := phraseStart + String.length (phrase m) in
  let out := out ++ escapeHtml (slice last phraseStart rawLine) in
  let out := out ++ "<i>" ++ escapeHtml (slice phraseStart phraseEnd rawLine) ++ "</i>" in
  (out, phraseEnd).

Definition italicizeLineWholeWords (rawLine : string) (italicsRe : option RegExp)
  : result string :=
  match italicsRe with
  | None => Ok (escapeHtml rawLine)
  | Some re =>
      ms <- matchAll re rawLine ;;
      let '(out, last) := fold_left (italicizeStep rawLine) ms (EmptyString, 0) in
      Ok (out ++ escapeHtml (sliceFrom last rawLine))
  end.

(** ** sbvToVtt *)

(** [s.replace(/\r\n/g, NL)]. *)
Fixpoint replaceCRLF (s : string) : string :=
  match s with
  | EmptyString => EmptyString
  | String c s' =>
      match s' with
      | String d r =>
          if Ascii.eqb c CR && Ascii.eqb d LF then String LF (replaceCRLF r)
          else String c (replaceCRLF s')
      | EmptyString => String c EmptyString
      end
  end.

(** [s.replace(/\r/g, NL)]. *)
Fixpoint replaceCR (s : string) : string :=
  match s with
  | EmptyString => EmptyString
  | String c s' => String (if Ascii.eqb c CR then LF else c) (replaceCR s')
  end.

(** [s.split(NL)]. *)
Fixpoint splitLF (s : string) : list string :=
  match s with
  | EmptyString => [EmptyString]
  | String c s' =>
      if Ascii.eqb c LF then EmptyString :: splitLF s'
      else match splitLF s' with
           | h :: t => String c h :: t
           | [] => [String c EmptyString]
           end
  end.

(** The lazy first group of [/^(.+?),(.+?)$/] has taken [acc]; [s] is what
    follows.  The group stops at the first comma after which the second
    group can reach the end of the text, and otherwise grows by one
    character. *)
Fixpoint timeLineFrom (acc : string) (s : string) : option (string * string) :=
  match s with
  | EmptyString => None
  | String c s' =>
      if Ascii.eqb c "," && negb (isEmpty s') && allb isDotCh s'
      then Some (acc, s')
      else if isDotCh c then timeLineFrom (acc ++ String c EmptyString) s'
      else None
  end.

(** [timeLine.match(/^(.+?),(.+?)$/)]: the groups 1 and 2. *)
Definition matchTimeLine (timeLine : string) : option (string * string) :=
  match timeLine with
  | EmptyString => None
  | String c s' =>
      if isDotCh c then timeLineFrom (String c EmptyString) s' else None
  end.

Definition isBlank (l : string) : bool := isEmpty (trim l).

(** The first inner loop: the lines pushed to [cueLines]. *)
Fixpoint collectCue (lines : list string) : list string :=
  match lines with
  | [] => []
  | l :: rest => if isBlank l then [] else l :: collectCue rest
  end.

(** The second inner loop: the lines left once the blank ones are passed. *)
Fixpoint skipBlank (lines : list string) : list string :=
  match lines with
  | [] => []
  | l :: rest => if isBlank l then skipBlank rest else lines
  end.

(** The outer [while] loop.  [lines] is [lines.slice(i)], the lines not yet
    read, so that [i++] is a step to the tail. *)
Fixpoint sbvLoop (fuel : nat) (italicsRe : option RegExp)
  (lines : list string) (vtt : string) : result string :=
  match fuel with
  | 0 => OutOfFuel
  | S fuel' =>
      match lines with
      | [] => Ok vtt
      | l :: rest =>
          let timeLine := trim l in
          if isEmpty timeLine then sbvLoop fuel' italicsRe rest vtt
          else
            match matchTimeLine timeLine with
            | None => sbvLoop fuel' italicsRe rest vtt
            | Some (tm1, tm2) =>
                let start := normalizeHour (trim tm1) in
                let end_ := normalizeHour (trim tm2) in
                let cueLines := collectCue rest in
                let rest := skipn (List.length cueLines) rest in
                let rest := skipBlank rest in
                ls <- mapM (fun l => italicizeLineWholeWords l italicsRe) cueLines ;;
                let processed := join NL ls in
                sbvLoop fuel' italicsRe rest
                  (vtt ++ start ++ " --> " ++ end_ ++ NL ++ processed ++ NL ++ NL)
            end
      end
  end.

Definition sbvToVtt (sbvText : string) (italicsRe : option RegExp) : result string :=
  let lines := splitLF (replaceCR (replaceCRLF sbvText)) in
  vtt <- sbvLoop (S (List.length lines)) italicsRe lines ("WEBVTT" ++ NL ++ NL) ;;
  Ok (trimEnd vtt ++ NL).

(** The core as [onRequest] chains it once the request body is read; the
    handler itself answers an empty [sbvText] with an error before the core
    runs, the core takes any text. *)
Definition convert (sbvText italicsText : string) : result string :=
  let phrases := buildItalicsList italicsText in
  italicsRe <- buildItalicsRegex phrases ;;
  sbvToVtt sbvText italicsRe.

(** ** Vocabulary of the specification *)

(** The timestamp shape of the data model: [ts] is [h:m:s.ms] with one or
    more hour digits, two minute digits, two second digits and three
    millisecond digits. *)
Definition TimestampShape (ts h m s ms : string) : Prop :=
  ts = h ++ ":" ++ m ++ ":" ++ s ++ "." ++ ms
  /\ 1 <= String.length h /\ allb isDigit h = true
  /\ String.length m = 2 /\ allb isDigit m = true
  /\ String.length s = 2 /\ allb isDigit s = true
  /\ String.length ms = 3 /\ allb isDigit ms = true.

(** The two-digit-hour invariant in the words of the data model: whenever
    [ts] has the timestamp shape, the normalized text is a two-digit hour
    followed by the given minute, second and millisecond fields. *)
Definition hourIsTwoDigits (ts : string) : Prop :=
  forall h m s ms, TimestampShape ts h m s ms ->
    exists hh, String.length hh = 2 /\ allb isDigit hh = true
      /\ normalizeHour ts = hh ++ ":" ++ m ++ ":" ++ s ++ "." ++ ms.

Definition isComma (c : ascii) : bool := Ascii.eqb c ",".
Definition noComma (s : string) : bool := allb (fun c => negb (isComma c)) s.

(** The time-line rule in the words of the specification: the line is cut
    at its first comma, and it is discarded when nothing stands before or
    nothing stands after that comma. *)
Definition splitsAtFirstComma (t : string) : Prop :=
  forall pre post, t = pre ++ "," ++ post -> noComma pre = true ->
    matchTimeLine t =
      if isEmpty pre || isEmpty post then None else Some (pre, post).

(** A line as the italicizer assembles it: plain slices and italic slices
    of the raw line, in order. *)
Inductive Segment : Type :=
| Plain (s : string)
| Italic (s : string).

Definition rawOf (g : Segment) : string :=
  match g with Plain s => s | Italic s => s end.

Definition render (g : Segment) : string :=
  match g with
  | Plain s => escapeHtml s
  | Italic s => "<i>" ++ escapeHtml s ++ "</i>"
  end.

Definition rawAll (gs : list Segment) : string :=
  fold_right (fun g acc => rawOf g ++ acc) EmptyString gs.

Definition renderAll (gs : list Segment) : string :=
  fold_right (fun g acc => render g ++ acc) EmptyString gs.

(** Removes every [<i>] and [</i>] from a text, left to right; [skip]
    counts the characters of a tag still to be passed. *)
Fixpoint stripTagsFrom (skip : nat) (s : string) : string :=
  match s with
  | EmptyString => EmptyString
  | String c s' =>
      match skip with
      | S k => stripTagsFrom k s'
      | 0 =>
          if startsWith "<i>" s then stripTagsFrom 2 s'
          else if startsWith "</i>" s then stripTagsFrom 3 s'
          else String c (stripTagsFrom 0 s')
      end
  end.

Definition stripTags (s : string) : string := stripTagsFrom 0 s.

(** The character an entity of [htmlEntity] stands for, with the length of
    the entity, when [s] starts with one. *)
Definition decodeEntity (s : string) : option (ascii * nat) :=
  if startsWith "&amp;" s then Some ("&"%char, 5)
  else if startsWith "&lt;" s then Some ("<"%char, 4)
  else if startsWith "&gt;" s then Some (">"%char, 4)
  else if startsWith "&quot;" s then Some (DQUOTE, 6)
  else if startsWith "&#039;" s then Some ("'"%char, 6)
  else None.

(** Reverses the five escapes of [escapeHtml], left to right. *)
Fixpoint unescapeHtmlFrom (skip : nat) (s : string) : string :=
  match s with
  | EmptyString => EmptyString
  | String c s' =>
      match skip with
      | S k => unescapeHtmlFrom k s'
      | 0 =>
          match decodeEntity s with
          | Some (ch, n) => String ch (unescapeHtmlFrom (n - 1) s')
          | None => String c (unescapeHtmlFrom 0 s')
          end
      end
  end.

Definition unescapeHtml (s : string) : string := unescapeHtmlFrom 0 s.

Definition isMarkupCh (c : ascii) : bool :=
  Ascii.eqb c "<" || Ascii.eqb c ">" || Ascii.eqb c DQUOTE || Ascii.eqb c "'".

(** Where a match puts its italic span. *)
Definition phraseStart (m : MatchResult) : nat :=
  index m + String.length (leftBoundary m).
Definition phraseEnd (m : MatchResult) : nat :=
  phraseStart m + String.length (phrase m).

(** Start of the line, or a character that is no letter and no digit just
    before index [i]. *)
Definition boundaryBefore (line : string) (i : nat) : Prop :=
  i = 0 \/ exists c, String.get (i - 1) line = Some c /\ isWordCh c = false.

(** End of the line, or a character that is no letter and no digit at
    index [i]. *)
Definition boundaryAfter (line : string) (i : nat) : Prop :=
  i = String.length line
  \/ exists c, String.get i line = Some c /\ isWordCh c = false.

(** The terms an escaped phrase compiles to: one literal per character. *)
Fixpoint litTerms (s : string) : list Term :=
  match s with
  | EmptyString => []
  | String c s' => mkTerm (Lit c) false :: litTerms s'
  end.

(** Longest first: no phrase is followed by a strictly longer one. *)
Definition LongestFirst (l : list string) : Prop :=
  StronglySorted (fun a b => String.length b <= String.length a) l.

Definition hasLength (n : nat) (s : string) : bool := (String.length s =? n)%nat.

(** The segments the loop of the italicizer writes for the matches [ms],
    from the state [last] on. *)
Fixpoint segmentsOf (rawLine : string) (last : nat) (ms : list MatchResult)
  : list Segment :=
  match ms with
  | [] => [Plain (sliceFrom last rawLine)]
  | m :: ms' =>
      Plain (slice last (phraseStart m) rawLine)
      :: Italic (slice (phraseStart m) (phraseEnd m) rawLine)
      :: segmentsOf rawLine (phraseEnd m) ms'
  end.

(** What a match has to satisfy to count as a whole word or phrase. *)
Definition onWordBoundaries (rawLine : string) (m : MatchResult) : Prop :=
  boundaryBefore rawLine (phraseStart m)
  /\ boundaryAfter rawLine (phraseEnd m)
  /\ slice (phraseStart m) (phraseEnd m) rawLine = phrase m.

(** The italicizer behind the matcher built from a phrase list. *)
Definition italicizeWith (phrases : list string) (rawLine : string) : result string :=
  italicsRe <- buildItalicsRegex phrases ;;
  italicizeLineWholeWords rawLine italicsRe.

(** The matches come left to right and do not overlap: each phrase starts
    at or after [last], the end of the phrase before it. *)
Fixpoint chained (last : nat) (ms : list MatchResult) : Prop :=
  match ms with
  | [] => True
  | m :: ms' => last <= phraseStart m /\ chained (phraseEnd m) ms'
  end.

(** ** The request handler *)

(** [\w] without the [u] and [i] flags. *)
Definition isWordW (c : ascii) : bool :=
  inRange 48 57 c || inRange 65 90 c || inRange 97 122 c || isCode 95 c.

(** The characters that the class of [sanitizeFilename] leaves alone: [\w],
    dot, hyphen, the two parentheses and the space. *)
Definition isSafeNameCh (c : ascii) : bool :=
  isWordW c || Ascii.eqb c "." || Ascii.eqb c "-" || Ascii.eqb c "("
  || Ascii.eqb c ")" || Ascii.eqb c " ".

(** [name.replace(re, "_")] with [re] the global negated class followed by
    [+]: every maximal run of other characters becomes one underscore;
    [inRun] tells that the previous character belonged to such a run. *)
Fixpoint replaceUnsafeRuns (inRun : bool) (s : string) : string :=
  match s with
  | EmptyString => EmptyString
  | String c s' =>
      if isSafeNameCh c then String c (replaceUnsafeRuns false s')
      else if inRun then replaceUnsafeRuns true s'
      else String "_" (replaceUnsafeRuns true s')
  end.

(** [toLowerCase] on one code unit below U+0100. *)
Definition toLowerCh (c : ascii) : ascii :=
  if inRange 65 90 c || (inRange 192 222 c && negb (isCode 215 c))
  then ascii_of_nat (nat_of_ascii c + 32)
  else c.

Fixpoint toLowerCase (s : string) : string :=
  match s with
  | EmptyString => EmptyString
  | String c s' => String (toLowerCh c) (toLowerCase s')
  end.

(** [s.endsWith(suffix)]. *)
Definition endsWith (suffix s : string) : bool :=
  (String.length suffix <=? String.length s)%nat
  && String.eqb (drop (String.length s - String.length suffix) s) suffix.

Definition sanitizeFilename (name : string) : string :=
  let cleaned := trim (replaceUnsafeRuns false name) in
  if endsWith ".vtt" (toLowerCase cleaned) then cleaned
  else (if isEmpty cleaned then "captions" else cleaned) ++ ".vtt".

(** The objects given to [json]; the text that [JSON.stringify] makes of
    them is not modelled. *)
Inductive JsonReply : Type :=
| ReplyOk
| ReplyError (error : string).

Inductive ResponseBody : Type :=
| VttBody (vtt : string)
| JsonBody (obj : JsonReply).

(** What [new Response(body, { status, headers })] is given. *)
Record Response : Type :=
  mkResponse { status : nat; headers : list (string * string); body : ResponseBody }.

Definition vttResponse (vtt filename : string) : Response :=
  mkResponse 200
    [("content-type", "text/vtt; charset=utf-8");
     ("content-disposition",
      "attachment; filename=" ++ String DQUOTE (sanitizeFilename filename)
        ++ String DQUOTE EmptyString);
     ("cache-control", "no-store")]
    (VttBody vtt).

Definition json (obj : JsonReply) (status : nat) : Response :=
  mkResponse status [("content-type", "application/json; charset=utf-8")]
    (JsonBody obj).

(** A body of the declared type [RequestBody]: each key absent or a
    string. *)
Record RequestBody : Type :=
  mkBody { sbvText : option string;
           italicsText : option string;
           outputName : option string }.

(** A request as the handler reads it: the method, and the outcome of
    [request.json()], [None] when it rejects. *)
Record Request : Type :=
  mkRequest { method : string; parsedBody : option RequestBody }.

Definition orEmpty (field : option string) : string :=
  match field with Some s => s | None => EmptyString end.

Definition onRequest (request : Request) : result Response :=
  if String.eqb (method request) "OPTIONS" then Ok (json ReplyOk 200)
  else if negb (String.eqb (method request) "POST")
  then Ok (json (ReplyError "Use POST") 405)
  else
    match parsedBody request with
    | None => Ok (json (ReplyError "Invalid JSON body") 400)
    | Some body =>
        let sbv := orEmpty (sbvText body) in
        if isEmpty sbv then Ok (json (ReplyError "sbvText is required") 400)
        else
          let italics := orEmpty (italicsText body) in
          let phrases := buildItalicsList italics in
          italicsRe <- buildItalicsRegex phrases ;;
          vtt <- sbvToVtt sbv italicsRe ;;
          Ok (vttResponse vtt
                (if isEmpty (orEmpty (outputName body)) then "captions.vtt"
                 else orEmpty (outputName body)))
    end.

(** ** Vocabulary of the further properties *)

(** Two texts that differ in letter case only: equal character by
    character once canonicalized. *)
Fixpoint sameFold (p q : string) : Prop :=
  match p, q with
  | EmptyString, EmptyString => True
  | String c p', String d q' => canonicalize c = canonicalize d /\ sameFold p' q'
  | _, _ => False
  end.

(** Where a match lies, text aside: its index and the lengths of its two
    groups. *)
Definition placeOf (m : MatchResult) : nat * nat * nat :=
  (index m, String.length (leftBoundary m), String.length (phrase m)).

Definition placesOf (r : result (list MatchResult)) : result (list (nat * nat * nat)) :=
  ms <- r ;; Ok (map placeOf ms).

Definition noWhiteSpace (s : string) : bool :=
  allb (fun c => negb (isWhiteSpace c)) s.

Definition noLineBreak (s : string) : bool :=
  allb (fun c => negb (Ascii.eqb c CR) && negb (Ascii.eqb c LF)) s.

(** One cue block of a document: the time line with the two fields the
    pattern cuts it into, the text lines, and the blank lines after them. *)
Record CueBlock : Type :=
  mkCue { timeLine : string; startField : string; endField : string;
          textLines : list string; separators : list string }.

Definition blockLines (c : CueBlock) : list string :=
  (timeLine c :: textLines c ++ separators c)%list.

Definition documentLines (cs : list CueBlock) : list string :=
  flat_map blockLines cs.

(** A block as the grammar of the format has it. *)
Definition ValidCue (c : CueBlock) : Prop :=
  matchTimeLine (trim (timeLine c)) = Some (startField c, endField c)
  /\ Forall (fun l => isBlank l = false) (textLines c)
  /\ Forall (fun l => isBlank l = true) (separators c).

(** Every block but the last ends with at least one blank line. *)
Fixpoint Separated (cs : list CueBlock) : Prop :=
  match cs with
  | [] => True
  | c :: cs' => (cs' = [] \/ separators c <> []) /\ Separated cs'
  end.

(** The text the loop appends for one cue. *)
Definition cueText (italicsRe : option RegExp) (c : CueBlock) : result string :=
  ls <- mapM (fun l => italicizeLineWholeWords l italicsRe) (textLines c) ;;
  Ok (normalizeHour (trim (startField c)) ++ " --> "
      ++ normalizeHour (trim (endField c)) ++ NL ++ join NL ls ++ NL ++ NL).

(** The characters of a timestamp: digits, colon and dot. *)
Definition isStampCh (c : ascii) : bool :=
  isDigit c || Ascii.eqb c ":" || Ascii.eqb c ".".

Definition CRLF : string := String CR (String LF EmptyString).

(** * Theorems *)

(** ** Strings *)

Lemma str_app_nil_r (s : string) : s ++ EmptyString = s.
Proof. induction s as [|c s IH]; simpl; [reflexivity | now rewrite IH]. Qed.

Lemma str_app_assoc (a b c : string) : (a ++ b) ++ c = a ++ b ++ c.
Proof. induction a as [|x a IH]; simpl; [reflexivity | now rewrite IH]. Qed.

Lemma str_length_app (a b : string) :
  String.length (a ++ b) = String.length a + String.length b.
Proof. induction a as [|x a IH]; simpl; [reflexivity | now rewrite IH]. Qed.

Lemma take_length_le (n : nat) (s : string) : String.length (take n s) <= n.
Proof.
  revert s; induction n as [|n IH]; intros [|c s]; simpl; try lia.
  specialize (IH s); lia.
Qed.

Lemma take_length_le_str (n : nat) (s : string) :
  String.length (take n s) <= String.length s.
Proof.
  revert s; induction n as [|n IH]; intros [|c s]; simpl; try lia.
  specialize (IH s); lia.
Qed.

Lemma take_drop (n : nat) (s : string) : take n s ++ drop n s = s.
Proof.
  revert s; induction n as [|n IH]; intros [|c s]; simpl; try reflexivity.
  now rewrite IH.
Qed.

Lemma take_app_slice (a b : nat) (s : string) :
  a <= b -> take a s ++ slice a b s = take b s.
Proof.
  unfold slice. revert b s; induction a as [|a IH]; intros b s Hab.
  - simpl. now rewrite Nat.sub_0_r.
  - destruct b as [|b]; [lia|]. destruct s as [|c s]; simpl.
    + now destruct (b - a).
    + rewrite IH by lia. reflexivity.
Qed.

Lemma drop_app_length (a b : string) : drop (String.length a) (a ++ b) = b.
Proof. induction a as [|x a IH]; simpl; [now destruct b | exact IH]. Qed.

Lemma startsWith_app (p s : string) : startsWith p (p ++ s) = true.
Proof.
  induction p as [|x p IH]; simpl; [reflexivity|].
  now rewrite Ascii.eqb_refl, IH.
Qed.

Lemma takeWhile_app_stop (p : ascii -> bool) (a : string) (c : ascii) (b : string) :
  allb p a = true -> p c = false -> takeWhile p (a ++ String c b) = a.
Proof.
  intros Ha Hc. induction a as [|x a IH]; simpl in *.
  - now rewrite Hc.
  - apply andb_true_iff in Ha as [Hx Ha]. now rewrite Hx, IH.
Qed.

Lemma takeWhile_all (p : ascii -> bool) (s : string) : allb p (takeWhile p s) = true.
Proof.
  induction s as [|c s IH]; simpl; [reflexivity|].
  destruct (p c) eqn:E; simpl; [now rewrite E, IH | reflexivity].
Qed.

Lemma takeWhile_drop (p : ascii -> bool) (s : string) :
  takeWhile p s ++ drop (String.length (takeWhile p s)) s = s.
Proof.
  induction s as [|c s IH]; simpl; [reflexivity|].
  destruct (p c); simpl; [now rewrite IH | reflexivity].
Qed.

Lemma isEmpty_true (s : string) : isEmpty s = true <-> s = EmptyString.
Proof. destruct s; simpl; split; congruence. Qed.

Lemma isEmpty_false_length (s : string) : isEmpty s = false <-> 1 <= String.length s.
Proof. destruct s; simpl; split; intros; try congruence; lia. Qed.

(** ** normalizeHour *)

Lemma isDigit_colon : isDigit ":" = false.
Proof. reflexivity. Qed.

(** The matcher accepts exactly the timestamp shape. *)
Lemma matchTimestamp_complete (ts h m s ms : string) :
  TimestampShape ts h m s ms ->
  matchTimestamp ts = Some (h, m, s ++ "." ++ ms).
Proof.
  intros (Hts & Hh & Hhd & Hm & Hmd & Hs & Hsd & Hms & Hmsd).
  unfold matchTimestamp. subst ts.
  change (h ++ ":" ++ m ++ ":" ++ s ++ "." ++ ms)
    with (h ++ String ":" (m ++ ":" ++ s ++ "." ++ ms)).
  rewrite (takeWhile_app_stop isDigit h ":" _ Hhd isDigit_colon).
  rewrite drop_app_length.
  apply isEmpty_false_length in Hh. rewrite Hh.
  destruct m as [|m1 [|m2 [|? ?]]]; try discriminate.
  destruct s as [|s1 [|s2 [|? ?]]]; try discriminate.
  destruct ms as [|f1 [|f2 [|f3 [|? ?]]]]; try discriminate.
  simpl in Hmd, Hsd, Hmsd.
  repeat rewrite andb_true_iff in *.
  destruct Hmd as (Hm1 & Hm2 & _), Hsd as (Hs1 & Hs2 & _),
    Hmsd as (Hf1 & Hf2 & Hf3 & _).
  simpl. rewrite Hm1, Hm2, Hs1, Hs2, Hf1, Hf2, Hf3. reflexivity.
Qed.

Lemma matchTimestamp_sound (ts h m g3 : string) :
  matchTimestamp ts = Some (h, m, g3) ->
  exists s ms, g3 = s ++ "." ++ ms /\ TimestampShape ts h m s ms.
Proof.
  unfold matchTimestamp.
  pose proof (takeWhile_drop isDigit ts) as Hsplit.
  pose proof (takeWhile_all isDigit ts) as Hdig.
  set (h0 := takeWhile isDigit ts) in *.
  destruct (isEmpty h0) eqn:Hne; [discriminate|].
  destruct (drop (String.length h0) ts)
    as [|c0 [|m1 [|m2 [|c1 [|s1 [|s2 [|d [|f1 [|f2 [|f3 [|? ?]]]]]]]]]]];
    try discriminate.
  destruct (_ && _) eqn:Hall; [|discriminate].
  intros E; injection E as <- <- <-.
  repeat rewrite andb_true_iff in Hall.
  destruct Hall as (((((((((H0 & H1) & H2) & H3) & H4) & H5) & H6) & H7) & H8) & H9).
  apply Ascii.eqb_eq in H0, H3, H6. subst c0 c1 d.
  exists (String s1 (String s2 EmptyString)),
         (String f1 (String f2 (String f3 EmptyString))).
  split; [reflexivity|].
  unfold TimestampShape. simpl.
  rewrite H1, H2, H4, H5, H7, H8, H9. simpl.
  apply isEmpty_false_length in Hne.
  repeat split; auto.
Qed.

Lemma padStart_length (n : nat) (c : ascii) (s : string) :
  String.length (padStart n c s) = Nat.max n (String.length s).
Proof.
  unfold padStart. rewrite str_length_app.
  assert (H : forall k, String.length (repeatCh k c) = k)
    by (induction k; simpl; congruence).
  rewrite H. lia.
Qed.

Lemma padStart_digits (n : nat) (s : string) :
  allb isDigit s = true -> allb isDigit (padStart n "0" s) = true.
Proof.
  intros Hs. unfold padStart.
  induction (n - String.length s) as [|k IH]; simpl; assumption.
Qed.

(** C5, as stated, fails at a three-digit hour: the text has the timestamp
    shape, and the normalizer leaves all three hour digits in place. *)
Lemma hourIsTwoDigits_fails_at_100_hours :
  ~ hourIsTwoDigits "100:00:00.000".
Proof.
  intros H.
  destruct (H "100" "00" "00" "000") as (hh & Hlen & _ & Heq).
  - unfold TimestampShape; simpl; repeat split; lia.
  - destruct hh as [|a [|b [|? ?]]]; try discriminate Hlen;
      vm_compute in Heq; discriminate Heq.
Qed.

(** C5 (amended): when the input has the timestamp shape, the output is the
    hour left-padded with zeros to at least two digits (exactly two for a
    one- or two-digit hour, unchanged for a longer one) followed by the
    minute, second and millisecond fields as given; any other input is
    returned unchanged. *)
Theorem normalizeHour_pads_hour_to_at_least_two (ts : string) :
  (forall h m s ms, TimestampShape ts h m s ms ->
     normalizeHour ts = padStart 2 "0" h ++ ":" ++ m ++ ":" ++ s ++ "." ++ ms
     /\ String.length (padStart 2 "0" h) = Nat.max 2 (String.length h)
     /\ allb isDigit (padStart 2 "0" h) = true
     /\ (String.length h <= 2 -> String.length (padStart 2 "0" h) = 2)
     /\ (2 <= String.length h -> padStart 2 "0" h = h))
  /\ ((forall h m s ms, ~ TimestampShape ts h m s ms) -> normalizeHour ts = ts).
Proof.
  split.
  - intros h m s ms Hshape.
    pose proof Hshape as (_ & _ & Hd & _).
    unfold normalizeHour. rewrite (matchTimestamp_complete _ _ _ _ _ Hshape).
    split; [reflexivity|]. split; [|split; [|split]].
    + apply padStart_length.
    + now apply padStart_digits.
    + intros Hle. rewrite padStart_length. lia.
    + intros Hge. unfold padStart.
      replace (2 - String.length h) with 0 by lia. reflexivity.
  - intros Hno. unfold normalizeHour.
    destruct (matchTimestamp ts) as [[[h m] g3]|] eqn:E; [|reflexivity].
    apply matchTimestamp_sound in E as (s & ms & _ & Hshape).
    now destruct (Hno h m s ms).
Qed.

Lemma normalizeHour_pads_hour_witness :
  normalizeHour "0:00:02.000" = "00:00:02.000"
  /\ normalizeHour "12:34" = "12:34".
Proof.
  split.
  - apply (proj1 (normalizeHour_pads_hour_to_at_least_two "0:00:02.000")
             "0" "00" "02" "000").
    unfold TimestampShape; simpl; repeat split; lia.
  - apply (proj2 (normalizeHour_pads_hour_to_at_least_two "12:34")).
    intros h m s ms Hshape.
    apply matchTimestamp_complete in Hshape. vm_compute in Hshape. discriminate.
Defined.

(** ** The matcher: where a match lies *)

Lemma drop_length (n : nat) (s : string) :
  String.length (drop n s) = String.length s - n.
Proof.
  revert s; induction n as [|n IH]; intros [|c s]; simpl; try lia.
  apply IH.
Qed.

Lemma take_length_exact (n : nat) (s : string) :
  n <= String.length s -> String.length (take n s) = n.
Proof.
  revert s; induction n as [|n IH]; intros [|c s]; simpl; intros H; try lia.
  rewrite IH; lia.
Qed.

Lemma drop_drop (a b : nat) (s : string) : drop b (drop a s) = drop (a + b) s.
Proof.
  revert s; induction a as [|a IH]; intros s; simpl; [reflexivity|].
  destruct s as [|c s]; [now destruct b | apply IH].
Qed.

Lemma get_drop (i : nat) (s : string) (c : ascii) (r : string) :
  drop i s = String c r -> String.get i s = Some c.
Proof.
  revert s; induction i as [|i IH]; intros [|x s]; simpl; intros H;
    try discriminate.
  - now injection H as -> _.
  - now apply IH.
Qed.

Lemma drop_nil_length (i : nat) (s : string) :
  i <= String.length s -> drop i s = EmptyString -> i = String.length s.
Proof.
  intros Hi H. pose proof (drop_length i s) as L. rewrite H in L. simpl in L. lia.
Qed.

Lemma matchTerms_le (ts : list Term) (s : string) (k : nat) :
  In k (matchTerms ts s) -> k <= String.length s.
Proof.
  revert s k; induction ts as [|[a [|]] ts IH]; intros s k Hin; simpl in Hin.
  - destruct Hin as [<-|[]]. lia.
  - apply in_flat_map in Hin as (j & Hj & Hk).
    apply in_map_iff in Hk as (k' & <- & Hk').
    apply IH in Hk'. rewrite drop_length in Hk'.
    apply in_rev, in_seq in Hj.
    pose proof (take_length_le_str 0 s).
    assert (String.length (takeWhile (atomMatches a) s) <= String.length s).
    { clear. induction s as [|c s IHs]; simpl; [lia|].
      destruct (atomMatches a c); simpl; lia. }
    lia.
  - destruct s as [|c s]; [contradiction|].
    destruct (atomMatches a c); [|contradiction].
    apply in_map_iff in Hin as (k' & <- & Hk'). apply IH in Hk'. simpl; lia.
Qed.

Lemma matchPhrase_spec (re : RegExp) (s : string) (k : nat) :
  matchPhrase re s = Some k ->
  k <= String.length s /\ lookahead (drop k s) = true
  /\ exists alt, In alt (alternatives re) /\ In k (matchTerms alt s).
Proof.
  unfold matchPhrase. intros H. apply find_some in H as (Hin & Hla).
  apply in_flat_map in Hin as (alt & Halt & Hk).
  split; [now apply matchTerms_le in Hk|]. split; [assumption|]. now exists alt.
Qed.

Lemma matchAt_length (re : RegExp) (i : nat) (suffix b p : string) :
  matchAt re i suffix = Some (b, p) ->
  String.length b + String.length p <= String.length suffix.
Proof.
  unfold matchAt. intros H.
  destruct (if (i =? 0)%nat then matchPhrase re suffix else None) as [k|].
  - injection H as <- <-. simpl. apply take_length_le_str.
  - destruct suffix as [|c rest]; [discriminate|].
    destruct (isNotWordCh c); [|discriminate].
    destruct (matchPhrase re rest) as [k|]; [|discriminate].
    injection H as <- <-. simpl. pose proof (take_length_le_str k rest). lia.
Qed.

Lemma execFrom_bounds (re : RegExp) (suffix : string) (i : nat) (m : MatchResult) :
  execFrom re i suffix = Some m ->
  i <= index m
  /\ index m + String.length (fullMatch m) <= i + String.length suffix.
Proof.
  revert i; induction suffix as [|c rest IH]; intros i H; simpl in H.
  - destruct (matchAt re i EmptyString) as [[b p]|] eqn:E; [|discriminate].
    injection H as <-. apply matchAt_length in E.
    unfold fullMatch; simpl. rewrite str_length_app. simpl in E. lia.
  - destruct (matchAt re i (String c rest)) as [[b p]|] eqn:E.
    + injection H as <-. apply matchAt_length in E.
      unfold fullMatch; simpl. rewrite str_length_app. simpl in E. lia.
    + apply IH in H. simpl. lia.
Qed.

Lemma regExpExec_bounds (re : RegExp) (s : string) (lastIndex : nat) (m : MatchResult) :
  regExpExec re s lastIndex = Some m ->
  lastIndex <= index m
  /\ index m + String.length (fullMatch m) <= String.length s.
Proof.
  unfold regExpExec. destruct (String.length s <? lastIndex)%nat eqn:E;
    [discriminate|].
  apply Nat.ltb_ge in E. intros H. apply execFrom_bounds in H.
  rewrite drop_length in H. lia.
Qed.

Lemma fullMatch_length (m : MatchResult) :
  index m + String.length (fullMatch m) = phraseEnd m.
Proof. unfold phraseEnd, phraseStart, fullMatch. rewrite str_length_app. lia. Qed.

(** The search index of [matchAll] moves forward at every match. *)
Lemma next_index_bounds (re : RegExp) (s : string) (lastIndex : nat) (m : MatchResult) :
  regExpExec re s lastIndex = Some m ->
  let e := index m + String.length (fullMatch m) in
  let next := if isEmpty (fullMatch m) then S e else e in
  lastIndex < next /\ phraseEnd m <= next /\ next <= S (String.length s).
Proof.
  intros H. apply regExpExec_bounds in H as (H1 & H2). simpl.
  rewrite <- fullMatch_length.
  destruct (fullMatch m) as [|c f] eqn:E; simpl in *; lia.
Qed.

(** [matchAll] always runs to its end on the fuel it is given. *)
Lemma matchAllFrom_total (re : RegExp) (s : string) (fuel lastIndex : nat) :
  String.length s + 2 <= fuel + lastIndex ->
  lastIndex <= S (String.length s) ->
  exists ms, matchAllFrom fuel re s lastIndex = Ok ms.
Proof.
  revert lastIndex; induction fuel as [|fuel IH]; intros li Hf Hli; [lia|].
  simpl. destruct (regExpExec re s li) as [m|] eqn:E; [|now exists []].
  pose proof (next_index_bounds _ _ _ _ E) as (Hlt & _ & Hle). simpl in Hlt, Hle.
  destruct (IH (if isEmpty (fullMatch m)
                then S (index m + String.length (fullMatch m))
                else index m + String.length (fullMatch m))) as (ms & Hms);
    [lia | lia |].
  rewrite Hms. simpl. now exists (m :: ms).
Qed.

Lemma matchAll_total (re : RegExp) (s : string) : exists ms, matchAll re s = Ok ms.
Proof. apply matchAllFrom_total; lia. Qed.

Lemma chained_mono (a b : nat) (ms : list MatchResult) :
  b <= a -> chained a ms -> chained b ms.
Proof. destruct ms as [|m ms]; simpl; [trivial|]. intros ? [? ?]; split; [lia|assumption]. Qed.

Lemma matchAllFrom_chained (re : RegExp) (s : string) (fuel lastIndex : nat)
  (ms : list MatchResult) :
  matchAllFrom fuel re s lastIndex = Ok ms -> chained lastIndex ms.
Proof.
  revert lastIndex ms; induction fuel as [|fuel IH]; intros li ms H; simpl in H;
    [discriminate|].
  destruct (regExpExec re s li) as [m|] eqn:E.
  - pose proof (next_index_bounds _ _ _ _ E) as (_ & Hend & _). simpl in Hend.
    apply regExpExec_bounds in E as (Hidx & _).
    destruct (matchAllFrom fuel re s _) as [ms'| |] eqn:R; simpl in H;
      try discriminate.
    injection H as <-. simpl. split; [unfold phraseStart; lia|].
    apply IH in R. eapply chained_mono; eassumption.
  - injection H as <-. exact I.
Qed.

(** ** escapeHtml *)

Lemma htmlEntity_cases (c : ascii) :
  (htmlEntity c = None /\ Ascii.eqb c "&" = false /\ isMarkupCh c = false)
  \/ (c = "&"%char /\ htmlEntity c = Some "&amp;")
  \/ (c = "<"%char /\ htmlEntity c = Some "&lt;")
  \/ (c = ">"%char /\ htmlEntity c = Some "&gt;")
  \/ (c = DQUOTE /\ htmlEntity c = Some "&quot;")
  \/ (c = "'"%char /\ htmlEntity c = Some "&#039;").
Proof.
  unfold htmlEntity, isMarkupCh.
  destruct (Ascii.eqb c "&") eqn:E1;
    [apply Ascii.eqb_eq in E1; subst; auto 10|].
  destruct (Ascii.eqb c "<") eqn:E2;
    [apply Ascii.eqb_eq in E2; subst; auto 10|].
  destruct (Ascii.eqb c ">") eqn:E3;
    [apply Ascii.eqb_eq in E3; subst; auto 10|].
  destruct (Ascii.eqb c DQUOTE) eqn:E4;
    [apply Ascii.eqb_eq in E4; subst; auto 10|].
  destruct (Ascii.eqb c "'") eqn:E5;
    [apply Ascii.eqb_eq in E5; subst; auto 10|].
  left; auto.
Qed.

Ltac entity_cases c :=
  destruct (htmlEntity_cases c)
    as [(?He & ?Hamp & ?Hmk)|[(-> & ?He)|[(-> & ?He)|[(-> & ?He)|[(-> & ?He)|(-> & ?He)]]]]];
  rewrite ?He.

Lemma escapeHtml_app (a b : string) :
  escapeHtml (a ++ b) = escapeHtml a ++ escapeHtml b.
Proof.
  induction a as [|c a IH]; simpl; [reflexivity|].
  rewrite IH. destruct (htmlEntity c); simpl; [now rewrite str_app_assoc|reflexivity].
Qed.

Lemma allb_app (p : ascii -> bool) (a b : string) :
  allb p (a ++ b) = allb p a && allb p b.
Proof.
  induction a as [|c a IH]; simpl; [reflexivity|].
  now rewrite IH, andb_assoc.
Qed.

(** No less-than, greater-than, double quote or apostrophe survives
    escaping. *)
Lemma escapeHtml_no_markup (s : string) :
  allb (fun c => negb (isMarkupCh c)) (escapeHtml s) = true.
Proof.
  induction s as [|c s IH]; [reflexivity|]. cbn [escapeHtml].
  entity_cases c; [|simpl; exact IH..].
  cbn [allb]. now rewrite Hmk, IH.
Qed.

Lemma stripTags_escaped (a r : string) :
  stripTagsFrom 0 (escapeHtml a ++ r) = escapeHtml a ++ stripTagsFrom 0 r.
Proof.
  induction a as [|c a IH]; [reflexivity|]. cbn [escapeHtml].
  entity_cases c; [|simpl; rewrite IH; reflexivity..].
  unfold isMarkupCh in Hmk.
  destruct (Ascii.eqb c "<") eqn:E; [discriminate|].
  cbn [append stripTagsFrom startsWith].
  rewrite (Ascii.eqb_sym "<" c), E. cbn [andb]. now rewrite IH.
Qed.

Lemma unescape_escaped (a r : string) :
  unescapeHtmlFrom 0 (escapeHtml a ++ r) = a ++ unescapeHtmlFrom 0 r.
Proof.
  induction a as [|c a IH]; [reflexivity|]. cbn [escapeHtml].
  entity_cases c; [|simpl; rewrite IH; reflexivity..].
  cbn [append unescapeHtmlFrom]. unfold decodeEntity.
  cbn [startsWith]. rewrite (Ascii.eqb_sym "&" c), Hamp. cbn [andb].
  now rewrite IH.
Qed.

(** Decoding undoes escaping. *)
Lemma unescapeHtml_escapeHtml (s : string) : unescapeHtml (escapeHtml s) = s.
Proof.
  unfold unescapeHtml.
  rewrite <- (str_app_nil_r (escapeHtml s)), unescape_escaped. simpl.
  apply str_app_nil_r.
Qed.

(** ** The italicizer: how the output is assembled *)

Lemma renderAll_app (g1 g2 : list Segment) :
  renderAll (g1 ++ g2)%list = renderAll g1 ++ renderAll g2.
Proof.
  induction g1 as [|g g1 IH]; simpl; [reflexivity|].
  now rewrite IH, str_app_assoc.
Qed.

Lemma rawAll_app (g1 g2 : list Segment) :
  rawAll (g1 ++ g2)%list = rawAll g1 ++ rawAll g2.
Proof.
  induction g1 as [|g g1 IH]; simpl; [reflexivity|].
  now rewrite IH, str_app_assoc.
Qed.

Lemma stripTags_renderAll (gs : list Segment) :
  stripTags (renderAll gs) = escapeHtml (rawAll gs).
Proof.
  unfold stripTags. induction gs as [|[s|s] gs IH]; simpl; [reflexivity| |].
  - now rewrite stripTags_escaped, IH, escapeHtml_app.
  - rewrite str_app_assoc, stripTags_escaped. simpl.
    now rewrite IH, escapeHtml_app.
Qed.

(** The loop keeps [out] the rendering of segments that spell the raw line
    up to [last]. *)
Lemma italicize_fold_segments (rawLine : string) (ms : list MatchResult) :
  forall (out : string) (last : nat) (gs : list Segment),
    chained last ms ->
    out = renderAll gs -> rawAll gs = take last rawLine ->
    exists gs',
      fst (fold_left (italicizeStep rawLine) ms (out, last)) = renderAll gs'
      /\ rawAll gs'
         = take (snd (fold_left (italicizeStep rawLine) ms (out, last))) rawLine.
Proof.
  induction ms as [|m ms IH]; intros out last gs Hch Hout Hraw; simpl.
  - now exists gs.
  - destruct Hch as (Hle & Hch).
    apply (IH _ _ (gs ++ [Plain (slice last (phraseStart m) rawLine);
                          Italic (slice (phraseStart m) (phraseEnd m) rawLine)])%list).
    + exact Hch.
    + rewrite renderAll_app, <- Hout. simpl.
      rewrite !str_app_assoc, str_app_nil_r. reflexivity.
    + rewrite rawAll_app, Hraw. simpl. rewrite str_app_nil_r.
      rewrite <- str_app_assoc, take_app_slice by exact Hle.
      apply take_app_slice. unfold phraseEnd, phraseStart. lia.
Qed.

(** Every call of the italicizer returns, and what it returns is a
    rendering of consecutive slices of the raw line. *)
Lemma italicize_segments (rawLine : string) (italicsRe : option RegExp) :
  exists out gs,
    italicizeLineWholeWords rawLine italicsRe = Ok out
    /\ out = renderAll gs /\ rawAll gs = rawLine.
Proof.
  destruct italicsRe as [re|]; simpl.
  - destruct (matchAll_total re rawLine) as (ms & Hms). rewrite Hms. simpl.
    apply matchAllFrom_chained in Hms.
    destruct (italicize_fold_segments rawLine ms EmptyString 0 [] Hms)
      as (gs & Hout & Hraw); [reflexivity | reflexivity |].
    destruct (fold_left (italicizeStep rawLine) ms (EmptyString, 0))
      as [out last]. simpl in Hout, Hraw.
    exists (out ++ escapeHtml (sliceFrom last rawLine)),
           (gs ++ [Plain (sliceFrom last rawLine)])%list.
    split; [reflexivity|]. split.
    + rewrite renderAll_app, Hout. simpl. now rewrite str_app_nil_r.
    + rewrite rawAll_app, Hraw. simpl. rewrite str_app_nil_r.
      apply take_drop.
  - exists (escapeHtml rawLine), [Plain rawLine]. simpl.
    now rewrite !str_app_nil_r.
Qed.

(** ** The matcher builder: what the pattern compiles to *)

#[local] Arguments Ascii.eqb : simpl nomatch.
#[local] Arguments isSyntaxCh : simpl never.
#[local] Arguments isRegexMeta : simpl never.

(** The replacement that was meant to restore the [\s+] inserted before
    escaping looks for backslash, s, plus and writes the same three
    characters back: it changes nothing. *)
Lemma undoEscapedWs_id (s : string) : undoEscapedWs s = s.
Proof.
  remember (String.length s) as n eqn:Hn.
  assert (Hle : String.length s <= n) by lia. clear Hn.
  revert s Hle; induction n as [|n IH]; intros s Hle.
  - destruct s; [reflexivity | simpl in Hle; lia].
  - destruct s as [|c s']; [reflexivity|].
    assert (Hs' : undoEscapedWs s' = s') by (apply IH; simpl in Hle; lia).
    assert (Hstep : undoEscapedWs (String c s')
                    = match s' with
                      | String d (String e r) =>
                          if Ascii.eqb c BACKSLASH && Ascii.eqb d "s" && Ascii.eqb e "+"
                          then RAW_WS_PLUS ++ undoEscapedWs r
                          else String c (undoEscapedWs s')
                      | _ => String c (undoEscapedWs s')
                      end) by (destruct s'; reflexivity).
    rewrite Hstep, Hs'. clear Hstep Hs'.
    destruct s' as [|d [|e r]]; try reflexivity.
    destruct (Ascii.eqb c BACKSLASH && Ascii.eqb d "s" && Ascii.eqb e "+") eqn:E;
      [|reflexivity].
    apply andb_true_iff in E as (E & E3). apply andb_true_iff in E as (E1 & E2).
    apply Ascii.eqb_eq in E1, E2, E3. subst.
    rewrite IH by (simpl in Hle; lia). reflexivity.
Qed.

Lemma phraseAlt_escaped (p : string) :
  phraseAlt p = escapeRegex (replaceWsRuns false (trim p)).
Proof. apply undoEscapedWs_id. Qed.

Lemma isRegexMeta_isSyntaxCh (c : ascii) : isRegexMeta c = isSyntaxCh c.
Proof.
  unfold isRegexMeta, isSyntaxCh.
  repeat match goal with
         | |- context [Ascii.eqb c ?x] =>
             destruct (Ascii.eqb c x);
             [repeat (rewrite orb_true_r || rewrite orb_true_l); reflexivity|]
         end.
  reflexivity.
Qed.

Lemma parseAlts_escaped_syntax (d : ascii) (s : string) cur done :
  isSyntaxCh d = true ->
  parseAlts (String BACKSLASH (String d s)) cur done
  = parseAlts s (mkTerm (Lit d) false :: cur) done.
Proof. intros H. simpl. now rewrite H. Qed.

Lemma parseAlts_pattern_ch (c : ascii) (s : string) cur done :
  isSyntaxCh c = false ->
  parseAlts (String c s) cur done
  = parseAlts s (mkTerm (Lit c) false :: cur) done.
Proof.
  intros H. cbn [parseAlts]. rewrite H.
  unfold isSyntaxCh in H. repeat rewrite orb_false_iff in H.
  destruct H as (((((((((((((_ & _) & Hb) & _) & _) & Hp) & _) & _) & Hc) & _) & _) & _) & _) & Hbar).
  now rewrite Hc, Hbar, Hb, Hp.
Qed.

(** An escaped phrase compiles to one literal per character of the phrase,
    whatever the characters are. *)
Lemma parseAlts_escaped (x rest : string) cur done :
  parseAlts (escapeRegex x ++ rest) cur done
  = parseAlts rest (rev (litTerms x) ++ cur)%list done.
Proof.
  revert cur; induction x as [|c x IH]; intros cur; [reflexivity|].
  cbn [escapeRegex litTerms rev]. rewrite <- app_assoc. cbn [app].
  destruct (isRegexMeta c) eqn:E; rewrite isRegexMeta_isSyntaxCh in E.
  - cbn [append]. rewrite parseAlts_escaped_syntax by exact E. apply IH.
  - cbn [append]. rewrite parseAlts_pattern_ch by exact E. apply IH.
Qed.

Lemma parseAlts_joined (x : string) (xs : list string) (tail : string) done :
  parseAlts (join "|" (map escapeRegex (x :: xs)) ++ ")" ++ tail) [] done
  = Some ((rev done ++ map litTerms (x :: xs))%list, tail).
Proof.
  revert x done; induction xs as [|y xs IH]; intros x done.
  - cbn [map join String.concat]. rewrite parseAlts_escaped.
    rewrite app_nil_r. simpl. now rewrite rev_involutive.
  - change (join "|" (map escapeRegex (x :: y :: xs)))
      with (escapeRegex x ++ "|" ++ join "|" (map escapeRegex (y :: xs))).
    rewrite !str_app_assoc, parseAlts_escaped, app_nil_r.
    change ("|" ++ join "|" (map escapeRegex (y :: xs)) ++ ")" ++ tail)
      with (String "|" (join "|" (map escapeRegex (y :: xs)) ++ ")" ++ tail)).
    cbn [parseAlts]. simpl (Ascii.eqb _ _).
    cbv iota. rewrite IH, rev_involutive. simpl. now rewrite <- app_assoc.
Qed.

Lemma insertByLength_cons (a : string) (l : list string) :
  exists b l', insertByLength a l = b :: l'.
Proof. destruct l as [|b l]; simpl; [eauto|]. destruct (_ <=? _)%nat; eauto. Qed.

(** The compiled matcher of a non-empty phrase list: the phrases longest
    first, each trimmed, its white-space runs replaced by the characters
    backslash, s, plus, and every character taken literally. *)
Lemma buildItalicsRegex_compiled (p : string) (ps : list string) :
  buildItalicsRegex (p :: ps)
  = Ok (Some (mkRegExp
               (map (fun q => litTerms (replaceWsRuns false (trim q)))
                    (sortLongestFirst (p :: ps))))).
Proof.
  unfold buildItalicsRegex, newRegExp, italicsPattern.
  rewrite startsWith_app, drop_app_length.
  destruct (insertByLength_cons p (sortLongestFirst ps)) as (b & l & Hs).
  cbn [sortLongestFirst]. rewrite Hs.
  rewrite (map_ext phraseAlt (fun q => escapeRegex (replaceWsRuns false (trim q))))
    by apply phraseAlt_escaped.
  rewrite <- (map_map (fun q => replaceWsRuns false (trim q)) escapeRegex).
  pose proof (parseAlts_joined (replaceWsRuns false (trim b))
                (map (fun q => replaceWsRuns false (trim q)) l)
                PATTERN_TAIL []) as Hparse.
  cbn [map] in Hparse |- *. rewrite Hparse.
  rewrite String.eqb_refl. cbn [bind rev app]. rewrite map_map. reflexivity.
Qed.

Lemma buildItalicsRegex_total (phrases : list string) :
  exists italicsRe, buildItalicsRegex phrases = Ok italicsRe.
Proof.
  destruct phrases as [|p ps]; [now exists None|].
  rewrite buildItalicsRegex_compiled. eauto.
Qed.

(** ** The parser loop *)

Section ParserLoop.

Variable italicsRe : option RegExp.

Lemma mapM_italicize_total (ls : list string) :
  exists out, mapM (fun l => italicizeLineWholeWords l italicsRe) ls = Ok out.
Proof.
  induction ls as [|l ls (out & IH)]; [now exists []|].
  destruct (italicize_segments l italicsRe) as (o & _ & Ho & _).
  cbn [mapM]. rewrite Ho, IH. cbn [bind]. eauto.
Qed.

Lemma skipBlank_length (lines : list string) :
  List.length (skipBlank lines) <= List.length lines.
Proof.
  induction lines as [|l rest IH]; simpl; [lia|].
  destruct (isBlank l); simpl; lia.
Qed.

Lemma after_cue_length (rest : list string) :
  List.length (skipBlank (skipn (List.length (collectCue rest)) rest))
  <= List.length rest.
Proof.
  etransitivity; [apply skipBlank_length|]. rewrite length_skipn. lia.
Qed.

(** One turn of the loop on a line that is blank or is no time line: the
    line is passed and nothing is written. *)
Lemma sbvLoop_skip (fuel : nat) (l : string) (rest : list string) (vtt : string) :
  isBlank l = true \/ matchTimeLine (trim l) = None ->
  sbvLoop (S fuel) italicsRe (l :: rest) vtt = sbvLoop fuel italicsRe rest vtt.
Proof.
  unfold isBlank. intros [H|H]; cbn [sbvLoop]; rewrite H; [reflexivity|].
  now destruct (isEmpty (trim l)).
Qed.

(** The loop ends within one turn per line and one more. *)
Lemma sbvLoop_total (fuel : nat) :
  forall (lines : list string) (vtt : string),
    List.length lines < fuel ->
    exists out, sbvLoop fuel italicsRe lines vtt = Ok out.
Proof.
  induction fuel as [|fuel IH]; intros lines vtt Hf; [lia|].
  destruct lines as [|l rest]; [now exists vtt|].
  cbn [sbvLoop]. simpl in Hf.
  destruct (isEmpty (trim l)); [apply IH; lia|].
  destruct (matchTimeLine (trim l)) as [[tm1 tm2]|]; [|apply IH; lia].
  destruct (mapM_italicize_total (collectCue rest)) as (ls & Hls).
  rewrite Hls. cbn [bind]. apply IH.
  pose proof (after_cue_length rest). lia.
Qed.

(** Fuel beyond the number of lines changes nothing. *)
Lemma sbvLoop_fuel (f1 : nat) :
  forall (f2 : nat) (lines : list string) (vtt : string),
    List.length lines < f1 -> List.length lines < f2 ->
    sbvLoop f1 italicsRe lines vtt = sbvLoop f2 italicsRe lines vtt.
Proof.
  induction f1 as [|f1 IH]; intros f2 lines vtt H1 H2; [lia|].
  destruct f2 as [|f2]; [lia|].
  destruct lines as [|l rest]; [reflexivity|].
  cbn [sbvLoop]. simpl in H1, H2.
  destruct (isEmpty (trim l)); [apply IH; lia|].
  destruct (matchTimeLine (trim l)) as [[tm1 tm2]|]; [|apply IH; lia].
  destruct (mapM _ (collectCue rest)); cbn [bind]; try reflexivity.
  pose proof (after_cue_length rest). apply IH; lia.
Qed.

Lemma sbvToVtt_total (sbvText : string) :
  exists out, sbvToVtt sbvText italicsRe = Ok out.
Proof.
  unfold sbvToVtt.
  destruct (sbvLoop_total
              (S (List.length (splitLF (replaceCR (replaceCRLF sbvText)))))
              (splitLF (replaceCR (replaceCRLF sbvText)))
              ("WEBVTT" ++ NL ++ NL)) as (vtt & H); [lia|].
  rewrite H. cbn [bind]. eauto.
Qed.

End ParserLoop.

(** C8: for every document text and every phrase list the matcher is built
    without an exception, and the conversion then runs to its end and
    returns a text; so does the core as the request handler chains it, for
    every document text and every phrase text. *)
Theorem conversion_core_is_total :
  (forall (sbvText : string) (phrases : list string),
     exists italicsRe out,
       buildItalicsRegex phrases = Ok italicsRe
       /\ sbvToVtt sbvText italicsRe = Ok out)
  /\ (forall sbvText italicsText : string,
        exists out, convert sbvText italicsText = Ok out)
  /\ (forall (rawLine : string) (italicsRe : option RegExp),
        exists out, italicizeLineWholeWords rawLine italicsRe = Ok out).
Proof.
  split; [|split].
  - intros sbvText phrases.
    destruct (buildItalicsRegex_total phrases) as (re & Hre).
    destruct (sbvToVtt_total re sbvText) as (out & Hout). eauto.
  - intros sbvText italicsText. unfold convert.
    destruct (buildItalicsRegex_total (buildItalicsList italicsText)) as (re & Hre).
    rewrite Hre. cbn [bind]. apply sbvToVtt_total.
  - intros rawLine italicsRe.
    destruct (italicize_segments rawLine italicsRe) as (out & _ & H & _). eauto.
Qed.

(** ** Time lines *)

Lemma timeLineFrom_no_comma (s acc : string) :
  noComma s = true -> timeLineFrom acc s = None.
Proof.
  revert acc; induction s as [|c s IH]; intros acc H; [reflexivity|].
  cbn [noComma allb] in H. apply andb_true_iff in H as (Hc & Hs).
  unfold isComma in Hc. apply negb_true_iff in Hc.
  cbn [timeLineFrom]. rewrite Hc. cbn [andb].
  destruct (isDotCh c); [now apply IH | reflexivity].
Qed.

Lemma matchTimeLine_no_comma (t : string) :
  noComma t = true -> matchTimeLine t = None.
Proof.
  destruct t as [|c s]; [reflexivity|]. intros H.
  cbn [noComma allb] in H. apply andb_true_iff in H as (_ & Hs).
  unfold matchTimeLine. destruct (isDotCh c); [|reflexivity].
  now apply timeLineFrom_no_comma.
Qed.

Lemma sbvLoop_skipBlank (italicsRe : option RegExp) (rest : list string) :
  forall (f1 f2 : nat) (vtt : string),
    List.length rest < f1 -> List.length rest < f2 ->
    sbvLoop f1 italicsRe rest vtt = sbvLoop f2 italicsRe (skipBlank rest) vtt.
Proof.
  induction rest as [|l rest IH]; intros f1 f2 vtt H1 H2.
  - apply sbvLoop_fuel; assumption.
  - cbn [skipBlank]. destruct (isBlank l) eqn:E.
    + destruct f1 as [|f1]; [lia|]. simpl in H1, H2.
      rewrite sbvLoop_skip by now left. apply IH; lia.
    + apply sbvLoop_fuel; assumption.
Qed.

Lemma collectCue_block (texts : list string) (sep : string) (rest : list string) :
  Forall (fun l => isBlank l = false) texts -> isBlank sep = true ->
  collectCue (texts ++ sep :: rest)%list = texts
  /\ skipn (List.length texts) (texts ++ sep :: rest)%list = sep :: rest.
Proof.
  intros Ht Hs. induction Ht as [|l texts Hl Ht (IH1 & IH2)]; simpl.
  - now rewrite Hs.
  - rewrite Hl, IH1. auto.
Qed.

(** One turn of the loop on a cue block: a time line, its text lines and a
    blank line. *)
Lemma sbvLoop_cue (fuel : nat) (italicsRe : option RegExp)
  (t a b : string) (texts : list string) (sep : string) (rest : list string)
  (ls : list string) (vtt : string) :
  matchTimeLine (trim t) = Some (a, b) ->
  Forall (fun l => isBlank l = false) texts -> isBlank sep = true ->
  mapM (fun l => italicizeLineWholeWords l italicsRe) texts = Ok ls ->
  sbvLoop (S fuel) italicsRe (t :: texts ++ sep :: rest)%list vtt
  = sbvLoop fuel italicsRe (skipBlank rest)
      (vtt ++ normalizeHour (trim a) ++ " --> " ++ normalizeHour (trim b)
           ++ NL ++ join NL ls ++ NL ++ NL).
Proof.
  intros Ht Htexts Hsep Hls. cbn [sbvLoop]. rewrite Ht.
  destruct (trim t) eqn:E; [discriminate|]. cbn [isEmpty].
  destruct (collectCue_block texts sep rest Htexts Hsep) as (-> & ->).
  rewrite Hls. cbn [bind skipBlank]. now rewrite Hsep.
Qed.

(** C6: a non-blank line without a comma met while a time line is sought is
    passed over: the loop goes on from the next line with the output
    unchanged and still returns.  A document in which such a line stands
    after a cue block converts to what the document without that line
    converts to; so the document with the line between two valid cue blocks
    gives exactly the two cues, in order. *)
Theorem malformed_time_line_is_discarded :
  (forall (italicsRe : option RegExp) (l : string) (rest : list string)
          (vtt : string),
     isBlank l = false -> noComma (trim l) = true ->
     sbvLoop (S (List.length (l :: rest))) italicsRe (l :: rest) vtt
     = sbvLoop (S (List.length rest)) italicsRe rest vtt
     /\ exists out, sbvLoop (S (List.length rest)) italicsRe rest vtt = Ok out)
  /\ (forall (italicsRe : option RegExp) (t a b : string) (texts : list string)
             (sep bad : string) (rest : list string) (vtt : string),
        matchTimeLine (trim t) = Some (a, b) ->
        Forall (fun l => isBlank l = false) texts -> isBlank sep = true ->
        isBlank bad = false -> noComma (trim bad) = true ->
        sbvLoop (S (List.length (t :: texts ++ sep :: bad :: rest)%list))
          italicsRe (t :: texts ++ sep :: bad :: rest)%list vtt
        = sbvLoop (S (List.length (t :: texts ++ sep :: rest)%list))
            italicsRe (t :: texts ++ sep :: rest)%list vtt)
  /\ convert ("0:00:00.000,0:00:02.000" ++ NL ++ "Hello" ++ NL ++ NL
              ++ "this is not a time line" ++ NL ++ NL
              ++ "0:00:02.000,0:00:04.000" ++ NL ++ "Goodbye") EmptyString
     = Ok ("WEBVTT" ++ NL ++ NL
           ++ "00:00:00.000 --> 00:00:02.000" ++ NL ++ "Hello" ++ NL ++ NL
           ++ "00:00:02.000 --> 00:00:04.000" ++ NL ++ "Goodbye" ++ NL)
  /\ convert ("0:00:00.000,0:00:02.000" ++ NL ++ "Hello" ++ NL ++ NL
              ++ "this is not a time line" ++ NL
              ++ "0:00:02.000,0:00:04.000" ++ NL ++ "Goodbye") EmptyString
     = convert ("0:00:00.000,0:00:02.000" ++ NL ++ "Hello" ++ NL ++ NL
                ++ "0:00:02.000,0:00:04.000" ++ NL ++ "Goodbye") EmptyString.
Proof.
  split; [|split; [|split; vm_compute; reflexivity]].
  - intros italicsRe l rest vtt Hblank Hcomma. split.
    + rewrite sbvLoop_skip by (right; now apply matchTimeLine_no_comma).
      apply sbvLoop_fuel; simpl; lia.
    + apply sbvLoop_total. lia.
  - intros italicsRe t a b texts sep bad rest vtt Ht Htexts Hsep Hbad Hcomma.
    destruct (mapM_italicize_total italicsRe texts) as (ls & Hls).
    rewrite (sbvLoop_cue _ _ t a b texts sep (bad :: rest) ls vtt Ht Htexts Hsep Hls).
    rewrite (sbvLoop_cue _ _ t a b texts sep rest ls vtt Ht Htexts Hsep Hls).
    cbn [skipBlank]. rewrite Hbad.
    cbn [List.length]. rewrite length_app. cbn [List.length].
    replace (List.length texts + S (S (List.length rest)))
      with (S (List.length texts + S (List.length rest))) by lia.
    rewrite sbvLoop_skip by (right; now apply matchTimeLine_no_comma).
    rewrite length_app. cbn [List.length].
    apply sbvLoop_skipBlank; lia.
Qed.

Lemma malformed_time_line_witness :
  (isBlank "this is not a time line" = false
   /\ noComma (trim "this is not a time line") = true
   /\ sbvLoop 3 None ["this is not a time line"; "0:00:02.000,0:00:04.000"]
        ("WEBVTT" ++ NL ++ NL)
      = sbvLoop 2 None ["0:00:02.000,0:00:04.000"] ("WEBVTT" ++ NL ++ NL))
  /\ (matchTimeLine (trim "0:00:00.000,0:00:02.000")
      = Some ("0:00:00.000", "0:00:02.000")
      /\ sbvLoop 7 None
           ["0:00:00.000,0:00:02.000"; "Hello"; EmptyString;
            "this is not a time line"; "0:00:02.000,0:00:04.000"; "Goodbye"]
           ("WEBVTT" ++ NL ++ NL)
         = sbvLoop 6 None
             ["0:00:00.000,0:00:02.000"; "Hello"; EmptyString;
              "0:00:02.000,0:00:04.000"; "Goodbye"]
             ("WEBVTT" ++ NL ++ NL)).
Proof.
  split.
  - split; [reflexivity|]. split; [reflexivity|].
    apply (proj1 malformed_time_line_is_discarded None
             "this is not a time line" ["0:00:02.000,0:00:04.000"]
             ("WEBVTT" ++ NL ++ NL)); reflexivity.
  - split; [reflexivity|].
    apply (proj1 (proj2 malformed_time_line_is_discarded) None
             "0:00:00.000,0:00:02.000" "0:00:00.000" "0:00:02.000"
             ["Hello"] EmptyString "this is not a time line"
             ["0:00:02.000,0:00:04.000"; "Goodbye"] ("WEBVTT" ++ NL ++ NL));
      try reflexivity.
    repeat constructor.
Defined.

(** C7: the end-to-end scenario of the specification. *)
Theorem end_to_end_scenario :
  convert ("0:00:00.000,0:00:02.000" ++ NL ++ "Hello world" ++ NL ++ NL
           ++ "0:00:02.000,0:00:04.000" ++ NL ++ "Goodbye") "world"
  = Ok ("WEBVTT" ++ NL ++ NL
        ++ "00:00:00.000 --> 00:00:02.000" ++ NL ++ "Hello <i>world</i>" ++ NL
        ++ NL
        ++ "00:00:02.000 --> 00:00:04.000" ++ NL ++ "Goodbye" ++ NL).
Proof. vm_compute. reflexivity. Qed.

(** ** The italicizer: safety and content *)

(** C4: for every raw line and every phrase list the matcher is built, the
    italicizer returns, and its output is the rendering of consecutive
    slices of the raw line, each escaped by [escapeHtml] and the italic ones
    wrapped in the tags; with the inserted tags taken out, what is left is
    exactly the escaped line, which holds no less-than, greater-than, double
    quote or apostrophe.  A line made of the script tag comes out escaped. *)
Theorem italicizer_output_is_injection_safe :
  (forall (rawLine : string) (phrases : list string),
     exists italicsRe out gs,
       buildItalicsRegex phrases = Ok italicsRe
       /\ italicizeLineWholeWords rawLine italicsRe = Ok out
       /\ out = renderAll gs /\ rawAll gs = rawLine
       /\ stripTags out = escapeHtml rawLine
       /\ allb (fun c => negb (isMarkupCh c)) (stripTags out) = true)
  /\ italicizeWith [] "<script>" = Ok "&lt;script&gt;"
  /\ italicizeWith ["hello"] "<script>" = Ok "&lt;script&gt;"
  /\ italicizeWith ["script"] "<script>" = Ok "&lt;<i>script</i>&gt;".
Proof.
  split; [|repeat split; vm_compute; reflexivity].
  intros rawLine phrases.
  destruct (buildItalicsRegex_total phrases) as (re & Hre).
  destruct (italicize_segments rawLine re) as (out & gs & Hout & Hgs & Hraw).
  exists re, out, gs. repeat (split; [assumption|]).
  assert (Hstrip : stripTags out = escapeHtml rawLine)
    by (now rewrite Hgs, stripTags_renderAll, Hraw).
  split; [exact Hstrip|]. rewrite Hstrip. apply escapeHtml_no_markup.
Qed.

(** C10: for every raw line and every matching rule, the no-match rule
    included, the italicizer returns a rendering of consecutive slices that
    spell the raw line, and taking the tags out of the output and reversing
    the five escapes gives the raw line back. *)
Theorem italicizer_preserves_content (rawLine : string) (italicsRe : option RegExp) :
  exists out gs,
    italicizeLineWholeWords rawLine italicsRe = Ok out
    /\ out = renderAll gs /\ rawAll gs = rawLine
    /\ unescapeHtml (stripTags out) = rawLine.
Proof.
  destruct (italicize_segments rawLine italicsRe) as (out & gs & Hout & Hgs & Hraw).
  exists out, gs. repeat (split; [assumption|]).
  now rewrite Hgs, stripTags_renderAll, Hraw, unescapeHtml_escapeHtml.
Qed.

(** ** The matcher: word boundaries *)

Section WordBoundaries.

Variable re : RegExp.
Variable line : string.

Lemma lookahead_boundary (j : nat) :
  j <= String.length line -> lookahead (drop j line) = true ->
  boundaryAfter line j.
Proof.
  intros Hj H. unfold boundaryAfter.
  destruct (drop j line) as [|c r] eqn:E.
  - left. now apply drop_nil_length.
  - right. exists c. split; [now apply get_drop in E|].
    simpl in H. unfold isNotWordCh in H. now apply negb_true_iff in H.
Qed.

Lemma matchAt_boundaries (i : nat) (b p : string) :
  i <= String.length line ->
  matchAt re i (drop i line) = Some (b, p) ->
  onWordBoundaries line (mkMatch i b p).
Proof.
  intros Hi H. unfold matchAt in H. unfold onWordBoundaries, phraseEnd, phraseStart.
  cbn [index leftBoundary phrase].
  destruct (if (i =? 0)%nat then matchPhrase re (drop i line) else None)
    as [k|] eqn:E.
  - destruct (i =? 0)%nat eqn:Ei; [|discriminate].
    apply Nat.eqb_eq in Ei. subst i. cbn [drop] in *.
    apply matchPhrase_spec in E as (Hk & Hla & _).
    injection H as <- <-. cbn [String.length]. rewrite take_length_exact by exact Hk.
    split; [now left|]. split; [now apply lookahead_boundary|].
    unfold slice. cbn [drop]. now rewrite Nat.sub_0_r.
  - destruct (drop i line) as [|c rest] eqn:Ed; [discriminate|].
    destruct (isNotWordCh c) eqn:Ec; [|discriminate].
    destruct (matchPhrase re rest) as [k|] eqn:Ek; [|discriminate].
    injection H as <- <-.
    apply matchPhrase_spec in Ek as (Hk & Hla & _).
    assert (Hrest : drop (i + 1) line = rest)
      by (rewrite <- drop_drop, Ed; reflexivity).
    assert (Hlen : String.length rest = String.length line - (i + 1))
      by (rewrite <- Hrest; apply drop_length).
    assert (Hi1 : i + 1 <= String.length line).
    { pose proof (drop_length i line) as L. rewrite Ed in L. simpl in L. lia. }
    cbn [String.length]. rewrite take_length_exact by exact Hk.
    split; [|split].
    + right. exists c. replace (i + 1 - 1) with i by lia.
      split; [now apply get_drop in Ed|].
      unfold isNotWordCh in Ec. now apply negb_true_iff in Ec.
    + apply lookahead_boundary; [lia|]. now rewrite <- drop_drop, Hrest.
    + unfold slice. rewrite Hrest. f_equal. lia.
Qed.

Lemma execFrom_boundaries (m : MatchResult) :
  forall (suffix : string) (i : nat),
    i <= String.length line -> drop i line = suffix ->
    execFrom re i suffix = Some m -> onWordBoundaries line m.
Proof.
  induction suffix as [|c rest IH]; intros i Hi Hd H; cbn [execFrom] in H.
  - destruct (matchAt re i EmptyString) as [[b p]|] eqn:E; [|discriminate].
    injection H as <-. rewrite <- Hd in E. now apply matchAt_boundaries in E.
  - destruct (matchAt re i (String c rest)) as [[b p]|] eqn:E.
    + injection H as <-. rewrite <- Hd in E. now apply matchAt_boundaries in E.
    + apply (IH (S i)); [| |exact H].
      * pose proof (drop_length i line) as L. rewrite Hd in L. simpl in L. lia.
      * replace (S i) with (i + 1) by lia. rewrite <- drop_drop, Hd. reflexivity.
Qed.

Lemma matchAllFrom_boundaries (fuel : nat) :
  forall (lastIndex : nat) (ms : list MatchResult),
    matchAllFrom fuel re line lastIndex = Ok ms ->
    Forall (onWordBoundaries line) ms.
Proof.
  induction fuel as [|fuel IH]; intros li ms H; cbn [matchAllFrom] in H;
    [discriminate|].
  destruct (regExpExec re line li) as [m|] eqn:E.
  - destruct (matchAllFrom fuel re line _) as [ms'| |] eqn:R; cbn [bind] in H;
      try discriminate.
    injection H as <-. constructor; [|now apply IH in R].
    unfold regExpExec in E.
    destruct (String.length line <? li)%nat eqn:El; [discriminate|].
    apply Nat.ltb_ge in El.
    now apply (execFrom_boundaries m (drop li line) li).
  - injection H as <-. constructor.
Qed.

End WordBoundaries.

(** The loop writes the segments of its matches. *)
Lemma italicize_fold_segmentsOf (rawLine : string) (ms : list MatchResult) :
  forall (out : string) (last : nat),
    (let '(out', last') := fold_left (italicizeStep rawLine) ms (out, last) in
     out' ++ escapeHtml (sliceFrom last' rawLine))
    = out ++ renderAll (segmentsOf rawLine last ms).
Proof.
  induction ms as [|m ms IH]; intros out last.
  - simpl. now rewrite str_app_nil_r.
  - cbn [fold_left italicizeStep]. rewrite IH.
    cbn [segmentsOf renderAll fold_right render]. unfold phraseEnd, phraseStart.
    now rewrite !str_app_assoc.
Qed.

(** C3: the italicizer returns for every rule and line; the italic spans of
    its output are the phrases of the matches; and every match lies on word
    boundaries: its phrase starts at the start of the line or just after a
    character that is neither letter nor digit, and ends at the end of the
    line or just before such a character.  The phrase art is not marked
    inside start or artistic and is marked in the three other lines. *)
Theorem matches_lie_on_word_boundaries :
  (forall (re : RegExp) (rawLine : string),
     exists ms,
       matchAll re rawLine = Ok ms
       /\ italicizeLineWholeWords rawLine (Some re)
          = Ok (renderAll (segmentsOf rawLine 0 ms))
       /\ Forall (onWordBoundaries rawLine) ms)
  /\ italicizeWith ["art"] "start" = Ok "start"
  /\ italicizeWith ["art"] "artistic" = Ok "artistic"
  /\ italicizeWith ["art"] "the art show" = Ok "the <i>art</i> show"
  /\ italicizeWith ["art"] "art show" = Ok "<i>art</i> show"
  /\ italicizeWith ["art"] "modern art" = Ok "modern <i>art</i>".
Proof.
  split; [|repeat split; vm_compute; reflexivity].
  intros re rawLine.
  destruct (matchAll_total re rawLine) as (ms & Hms).
  exists ms. split; [exact Hms|]. split.
  - cbn [italicizeLineWholeWords]. rewrite Hms. cbn [bind].
    pose proof (italicize_fold_segmentsOf rawLine ms EmptyString 0) as H.
    destruct (fold_left (italicizeStep rawLine) ms (EmptyString, 0)) as [o l].
    now rewrite H.
  - now apply matchAllFrom_boundaries in Hms.
Qed.

(** ** Time lines: where the line is cut *)

Lemma timeLineFrom_split (pre post acc : string) :
  noComma pre = true -> allb isDotCh pre = true ->
  isEmpty post = false -> allb isDotCh post = true ->
  timeLineFrom acc (pre ++ "," ++ post) = Some (acc ++ pre, post).
Proof.
  intros Hc Hd He Hp. revert acc Hc Hd; induction pre as [|c pre IH];
    intros acc Hc Hd.
  - cbn [append timeLineFrom]. rewrite He, Hp. simpl. now rewrite str_app_nil_r.
  - cbn [noComma allb] in Hc, Hd.
    apply andb_true_iff in Hc as (Hc & Hc'), Hd as (Hd & Hd').
    unfold isComma in Hc. apply negb_true_iff in Hc.
    cbn [append timeLineFrom]. rewrite Hc, Hd. cbn [andb].
    rewrite IH by assumption. now rewrite str_app_assoc.
Qed.

Lemma timeLineFrom_no_tail (pre acc : string) :
  noComma pre = true -> timeLineFrom acc (pre ++ ",") = None.
Proof.
  revert acc; induction pre as [|c pre IH]; intros acc Hc; [reflexivity|].
  cbn [noComma allb] in Hc. apply andb_true_iff in Hc as (Hc & Hc').
  unfold isComma in Hc. apply negb_true_iff in Hc.
  cbn [append timeLineFrom]. rewrite Hc. cbn [andb].
  destruct (isDotCh c); [now apply IH | reflexivity].
Qed.

Lemma timeLineFrom_sound (s acc a b : string) :
  timeLineFrom acc s = Some (a, b) ->
  exists pre, a = acc ++ pre /\ s = pre ++ "," ++ b /\ isEmpty b = false.
Proof.
  revert acc; induction s as [|c s IH]; intros acc H; [discriminate|].
  cbn [timeLineFrom] in H.
  destruct (Ascii.eqb c "," && negb (isEmpty s) && allb isDotCh s) eqn:E.
  - injection H as <- <-.
    apply andb_true_iff in E as (E & _). apply andb_true_iff in E as (E1 & E2).
    apply Ascii.eqb_eq in E1. subst c. apply negb_true_iff in E2.
    exists EmptyString. now rewrite str_app_nil_r.
  - destruct (isDotCh c); [|discriminate].
    apply IH in H as (pre & -> & -> & Hb).
    exists (String c pre). now rewrite str_app_assoc.
Qed.

Lemma matchTimeLine_sound (t a b : string) :
  matchTimeLine t = Some (a, b) ->
  exists c pre, a = String c pre /\ t = a ++ "," ++ b /\ isEmpty b = false.
Proof.
  destruct t as [|c s]; [discriminate|]. unfold matchTimeLine.
  destruct (isDotCh c); [|discriminate].
  intros H. apply timeLineFrom_sound in H as (pre & -> & -> & Hb).
  now exists c, pre.
Qed.

Lemma trimEnd_empty_iff (s : string) :
  trimEnd s = EmptyString <-> allb isWhiteSpace s = true.
Proof.
  induction s as [|c s IH]; [simpl; tauto|].
  cbn [trimEnd allb]. destruct (trimEnd s) as [|d t].
  - destruct (isWhiteSpace c); simpl; [tauto|]. split; discriminate.
  - split; [discriminate|]. intros H. apply andb_true_iff in H as (_ & H).
    apply IH in H. discriminate.
Qed.

Lemma trimEnd_head (c d : ascii) (s t : string) :
  trimEnd (String c s) = String d t -> d = c.
Proof.
  cbn [trimEnd]. destruct (trimEnd s); [destruct (isWhiteSpace c)|];
    congruence.
Qed.

Lemma dropWhile_head (p : ascii -> bool) (s : string) (c : ascii) (r : string) :
  dropWhile p s = String c r -> p c = false.
Proof.
  induction s as [|x s IH]; [discriminate|]. cbn [dropWhile].
  destruct (p x) eqn:E; [exact IH|]. congruence.
Qed.

Lemma trim_head (l : string) (c : ascii) (r : string) :
  trim l = String c r -> isWhiteSpace c = false.
Proof.
  unfold trim. destruct (dropWhile isWhiteSpace l) as [|x y] eqn:E;
    [discriminate|].
  intros H. apply trimEnd_head in H. subst. now apply dropWhile_head in E.
Qed.

Lemma trimEnd_app_ws (x b : string) :
  allb isWhiteSpace b = true -> trimEnd (x ++ b) = trimEnd x.
Proof.
  intros Hb. induction x as [|c x IH]; [now apply trimEnd_empty_iff|].
  cbn [append trimEnd]. now rewrite IH.
Qed.

Lemma trimEnd_length (s : string) : String.length (trimEnd s) <= String.length s.
Proof.
  induction s as [|c s IH]; [simpl; lia|]. cbn [trimEnd].
  destruct (trimEnd s); [destruct (isWhiteSpace c)|]; simpl in *; lia.
Qed.

Lemma trimEnd_idem (s : string) : trimEnd (trimEnd s) = trimEnd s.
Proof.
  induction s as [|c s IH]; [reflexivity|]. cbn [trimEnd].
  destruct (trimEnd s) as [|d t] eqn:E.
  - destruct (isWhiteSpace c) eqn:Ec; [reflexivity|]. cbn [trimEnd]. now rewrite Ec.
  - cbn [trimEnd] in IH |- *. now rewrite IH.
Qed.

Lemma trim_nonempty (s : string) :
  allb isWhiteSpace s = false -> isEmpty (trim s) = false.
Proof.
  intros H. unfold trim.
  destruct (trimEnd (dropWhile isWhiteSpace s)) eqn:E; [|reflexivity].
  apply trimEnd_empty_iff in E. exfalso.
  assert (allb isWhiteSpace s = true); [|congruence].
  clear H. induction s as [|c s IH]; [reflexivity|].
  cbn [dropWhile allb] in *. destruct (isWhiteSpace c) eqn:Ec; [now apply IH|].
  cbn [allb] in E. now rewrite Ec in E.
Qed.

Lemma normalizeHour_nonempty (ts : string) :
  isEmpty ts = false -> isEmpty (normalizeHour ts) = false.
Proof.
  intros H. unfold normalizeHour.
  destruct (matchTimestamp ts) as [[[h m] g3]|]; [|exact H].
  cbv zeta. now destruct (padStart 2 "0" h).
Qed.

(** Both fields of a cue are non-empty. *)
Lemma matchTimeLine_fields_nonempty (l a b : string) :
  matchTimeLine (trim l) = Some (a, b) ->
  isEmpty (normalizeHour (trim a)) = false
  /\ isEmpty (normalizeHour (trim b)) = false.
Proof.
  intros H. apply matchTimeLine_sound in H as (c & pre & Ha & Ht & Hb).
  split; apply normalizeHour_nonempty.
  - apply trim_nonempty. subst a. cbn [append] in Ht.
    apply trim_head in Ht. cbn [allb]. now rewrite Ht.
  - apply trim_nonempty. destruct (allb isWhiteSpace b) eqn:E; [|reflexivity].
    exfalso.
    assert (Hid : trimEnd (trim l) = trim l) by apply trimEnd_idem.
    rewrite Ht in Hid.
    rewrite <- (str_app_assoc a "," b), trimEnd_app_ws in Hid by exact E.
    pose proof (trimEnd_length (a ++ ",")) as L. rewrite Hid in L.
    rewrite !str_length_app in L. apply isEmpty_false_length in Hb. lia.
Qed.

Lemma allb_dropWhile (p q : ascii -> bool) (s : string) :
  allb p s = true -> allb p (dropWhile q s) = true.
Proof.
  induction s as [|c s IH]; [trivial|]. intros H. cbn [dropWhile].
  destruct (q c); [|exact H]. cbn [allb] in H.
  apply andb_true_iff in H as (_ & H). now apply IH.
Qed.

Lemma allb_trimEnd (p : ascii -> bool) (s : string) :
  allb p s = true -> allb p (trimEnd s) = true.
Proof.
  induction s as [|c s IH]; [trivial|]. intros H. cbn [allb] in H.
  apply andb_true_iff in H as (Hc & H). specialize (IH H). cbn [trimEnd].
  destruct (trimEnd s); [destruct (isWhiteSpace c)|]; cbn [allb] in *;
    rewrite ?Hc, ?IH; reflexivity.
Qed.

(** A character that the dot rejects, anywhere in the line, makes the
    time-line pattern fail: every character but the comma of the cut is
    taken by a dot, and that comma is itself a character the dot accepts. *)
Lemma timeLineFrom_rejected (s acc : string) :
  allb isDotCh s = false -> timeLineFrom acc s = None.
Proof.
  revert acc. induction s as [|c s IH]; intros acc H; [discriminate H|].
  cbn [allb] in H. cbn [timeLineFrom].
  destruct (isDotCh c) eqn:Ec.
  - cbn [andb] in H. rewrite H, andb_false_r. now apply IH.
  - destruct (Ascii.eqb c ",") eqn:E; [|reflexivity].
    apply Ascii.eqb_eq in E. subst c. discriminate Ec.
Qed.

Lemma matchTimeLine_rejected (t : string) :
  allb isDotCh t = false -> matchTimeLine t = None.
Proof.
  destruct t as [|c s]; [reflexivity|]. cbn [allb matchTimeLine].
  destruct (isDotCh c); [|reflexivity].
  cbn [andb]. apply timeLineFrom_rejected.
Qed.

(** C9, as stated, fails at a line that starts with a comma and has a
    second one: nothing stands before its first comma, yet the line is not
    discarded; it is cut at the second comma. *)
Lemma splitsAtFirstComma_fails_at_leading_comma :
  ~ splitsAtFirstComma ",a,b".
Proof.
  intros H. specialize (H EmptyString "a,b" eq_refl eq_refl).
  vm_compute in H. discriminate H.
Qed.

(** C9 (amended): a trimmed line all of whose characters the dot of the
    time-line pattern accepts, that is, a line that holds no line
    terminator, is cut at its first comma past the first character: the
    start field is the text before that comma and the end field the text
    after it, further commas included.  The line is discarded, like a line
    without a comma, when it has no such comma (so also when its only comma
    comes first), when nothing follows that comma, or when it holds a
    character that the dot rejects.  No cue gets an empty timestamp
    field. *)
Theorem time_line_is_cut_at_first_inner_comma :
  (forall (c : ascii) (s : string),
     noComma s = true -> matchTimeLine (String c s) = None)
  /\ (forall (c : ascii) (pre : string),
        noComma pre = true -> matchTimeLine (String c (pre ++ ",")) = None)
  /\ (forall t : string,
        allb isDotCh t = false -> matchTimeLine t = None)
  /\ (forall (c : ascii) (pre post : string),
        noComma pre = true -> isEmpty post = false ->
        allb isDotCh (String c (pre ++ "," ++ post)) = true ->
        matchTimeLine (String c (pre ++ "," ++ post)) = Some (String c pre, post))
  /\ (forall l a b : string,
        matchTimeLine (trim l) = Some (a, b) ->
        isEmpty (normalizeHour (trim a)) = false
        /\ isEmpty (normalizeHour (trim b)) = false)
  /\ (forall (fuel : nat) (italicsRe : option RegExp) (l : string)
             (rest : list string) (vtt : string),
        matchTimeLine (trim l) = None ->
        sbvLoop (S fuel) italicsRe (l :: rest) vtt
        = sbvLoop fuel italicsRe rest vtt).
Proof.
  repeat apply conj.
  - intros c s H. unfold matchTimeLine.
    destruct (isDotCh c); [now apply timeLineFrom_no_comma | reflexivity].
  - intros c pre H. unfold matchTimeLine.
    destruct (isDotCh c); [now apply timeLineFrom_no_tail | reflexivity].
  - apply matchTimeLine_rejected.
  - intros c pre post Hc He Hd. cbn [allb] in Hd.
    apply andb_true_iff in Hd as (Hdc & Hd). rewrite allb_app in Hd.
    apply andb_true_iff in Hd as (Hpre & Hpost). cbn [append allb] in Hpost.
    apply andb_true_iff in Hpost as (_ & Hpost).
    unfold matchTimeLine. rewrite Hdc. now rewrite timeLineFrom_split.
  - apply matchTimeLine_fields_nonempty.
  - intros fuel re l rest vtt H. apply sbvLoop_skip. now right.
Qed.

Lemma time_line_cut_witness :
  matchTimeLine ",0:00:01.000" = None
  /\ matchTimeLine "0:00:01.000," = None
  /\ matchTimeLine (String "0" (String CR ",1")) = None
  /\ matchTimeLine "a,b,c" = Some ("a", "b,c")
  /\ matchTimeLine ",a,b" = Some (",a", "b")
  /\ (isEmpty (normalizeHour (trim ",a")) = false
      /\ isEmpty (normalizeHour (trim "b")) = false)
  /\ sbvLoop 2 None ["0:00:01.000,"] "WEBVTT" = sbvLoop 1 None [] "WEBVTT".
Proof.
  pose proof time_line_is_cut_at_first_inner_comma
    as (H1 & H2 & H3 & H4 & H5 & H6).
  split; [exact (H1 ","%char "0:00:01.000" eq_refl)|].
  split; [exact (H2 "0"%char ":00:01.000" eq_refl)|].
  split; [exact (H3 (String "0" (String CR ",1")) eq_refl)|].
  split; [exact (H4 "a"%char EmptyString "b,c" eq_refl eq_refl eq_refl)|].
  split; [exact (H4 ","%char "a" "b" eq_refl eq_refl eq_refl)|].
  split; [exact (H5 ",a,b" ",a" "b" eq_refl)|].
  exact (H6 1 None "0:00:01.000," [] "WEBVTT" eq_refl).
Defined.

(** ** The matcher builder: phrase order *)

Lemma insertByLength_perm (a : string) (l : list string) :
  Permutation (insertByLength a l) (a :: l).
Proof.
  induction l as [|b l IH]; simpl; [reflexivity|].
  destruct (String.length b <=? String.length a)%nat; [reflexivity|].
  rewrite IH. apply perm_swap.
Qed.

Lemma insertByLength_sorted (a : string) (l : list string) :
  LongestFirst l -> LongestFirst (insertByLength a l).
Proof.
  unfold LongestFirst. induction 1 as [|b l Hl IH Hb]; simpl.
  - repeat constructor.
  - destruct (String.length b <=? String.length a)%nat eqn:E.
    + apply Nat.leb_le in E. constructor; [now constructor|].
      constructor; [exact E|].
      rewrite Forall_forall in *. intros x Hx. specialize (Hb x Hx). lia.
    + apply Nat.leb_gt in E. constructor; [exact IH|].
      rewrite Forall_forall in *. intros x Hx.
      apply (Permutation_in _ (insertByLength_perm a l)) in Hx.
      destruct Hx as [<-|Hx]; [lia | now apply Hb].
Qed.

Lemma insertByLength_stable (n : nat) (a : string) (l : list string) :
  filter (hasLength n) (insertByLength a l)
  = if hasLength n a then a :: filter (hasLength n) l
    else filter (hasLength n) l.
Proof.
  induction l as [|b l IH]; [reflexivity|]. cbn [insertByLength].
  destruct (String.length b <=? String.length a)%nat eqn:E; [reflexivity|].
  apply Nat.leb_gt in E. cbn [filter]. rewrite IH.
  unfold hasLength in *.
  destruct (String.length a =? n)%nat eqn:Ea; [|reflexivity].
  apply Nat.eqb_eq in Ea.
  destruct (String.length b =? n)%nat eqn:Eb; [|reflexivity].
  apply Nat.eqb_eq in Eb. lia.
Qed.

(** The order the matcher builder gives the phrases: the same phrases,
    longest first, and phrases of one length in the order they were given. *)
Lemma sortLongestFirst_spec (phrases : list string) :
  Permutation (sortLongestFirst phrases) phrases
  /\ LongestFirst (sortLongestFirst phrases)
  /\ forall n, filter (hasLength n) (sortLongestFirst phrases)
               = filter (hasLength n) phrases.
Proof.
  induction phrases as [|a l (IHp & IHs & IHf)]; cbn [sortLongestFirst].
  - split; [reflexivity|]. split; [constructor | reflexivity].
  - split; [|split].
    + rewrite insertByLength_perm. now constructor.
    + now apply insertByLength_sorted.
    + intros n. rewrite insertByLength_stable, IHf. reflexivity.
Qed.

(** The pattern the comments of the builder describe, with [\s+] left
    unescaped between the words, does match a run of white space: the
    matcher of the model knows the class and the quantifier. *)
Example intended_pattern_matches_white_space :
  exists re,
    newRegExp (PATTERN_HEAD ++ "Foo\s+Bar" ++ ")" ++ PATTERN_TAIL) = Ok re
    /\ italicizeLineWholeWords "say Foo   Bar now" (Some re)
       = Ok "say <i>Foo   Bar</i> now".
Proof.
  eexists. split; [vm_compute; reflexivity|]. vm_compute. reflexivity.
Qed.

(** C1 at its failing input: the phrases are put longest first, but the
    longer phrase holds white space, so its alternative only matches the
    text with backslash, s, plus between the words, and York is wrapped
    alone.  Without white space in the longer phrase it is the one wrapped,
    once. *)
Theorem longest_phrase_with_space_loses :
  sortLongestFirst ["York"; "New York City"] = ["New York City"; "York"]
  /\ italicsPattern ["York"; "New York City"]
     = PATTERN_HEAD ++ "New\\s\+York\\s\+City|York" ++ ")" ++ PATTERN_TAIL
  /\ italicizeWith ["York"; "New York City"] "I live in New York City"
     = Ok "I live in New <i>York</i> City"
  /\ italicizeWith ["York"; "NewYorkCity"] "I live in NewYorkCity"
     = Ok "I live in <i>NewYorkCity</i>".
Proof. repeat split; vm_compute; reflexivity. Qed.

(** C2 at its failing inputs: every phrase is compiled to literals only, a
    run of white space in it to the literals backslash, s, plus; so the
    phrase Foo Bar matches none of the three texts of the claim and the
    lines come out without italics; the only text it matches is the one
    that spells backslash, s, plus between the words. *)
Theorem phrase_white_space_is_matched_literally :
  (forall (p : string) (ps : list string),
     buildItalicsRegex (p :: ps)
     = Ok (Some (mkRegExp
                  (map (fun q => litTerms (replaceWsRuns false (trim q)))
                       (sortLongestFirst (p :: ps))))))
  /\ phraseAlt "Foo Bar" = "Foo\\s\+Bar"
  /\ buildItalicsRegex ["Foo Bar"]
     = Ok (Some (mkRegExp [litTerms "Foo\s+Bar"]))
  /\ italicizeWith ["Foo Bar"] "Foo Bar" = Ok "Foo Bar"
  /\ italicizeWith ["Foo Bar"] "Foo   Bar" = Ok "Foo   Bar"
  /\ italicizeWith ["Foo Bar"] ("Foo" ++ String TAB "Bar")
     = Ok ("Foo" ++ String TAB "Bar")
  /\ italicizeWith ["Foo Bar"] "Foo\s+Bar" = Ok "<i>Foo\s+Bar</i>".
Proof.
  split; [exact buildItalicsRegex_compiled|].
  repeat split; vm_compute; reflexivity.
Qed.

(** * Further properties *)

(** ** sanitizeFilename *)

Lemma allb_impl (p q : ascii -> bool) (s : string) :
  (forall c, p c = true -> q c = true) -> allb p s = true -> allb q s = true.
Proof.
  intros Hpq. induction s as [|c s IH]; [trivial|]. cbn [allb]. intros H.
  apply andb_true_iff in H as (Hc & Hs). now rewrite (Hpq c Hc), IH.
Qed.

Lemma allb_trim (p : ascii -> bool) (s : string) :
  allb p s = true -> allb p (trim s) = true.
Proof. intros H. unfold trim. now apply allb_trimEnd, allb_dropWhile. Qed.

Lemma replaceUnsafeRuns_safe (s : string) (inRun : bool) :
  allb isSafeNameCh (replaceUnsafeRuns inRun s) = true.
Proof.
  revert inRun; induction s as [|c s IH]; intros inRun; [reflexivity|].
  cbn [replaceUnsafeRuns]. destruct (isSafeNameCh c) eqn:E.
  - cbn [allb]. now rewrite E, IH.
  - destruct inRun; [apply IH|]. cbn [allb]. now rewrite IH.
Qed.

Lemma replaceUnsafeRuns_id (s : string) :
  allb isSafeNameCh s = true -> replaceUnsafeRuns false s = s.
Proof.
  induction s as [|c s IH]; [trivial|]. cbn [allb replaceUnsafeRuns]. intros H.
  apply andb_true_iff in H as (Hc & Hs). now rewrite Hc, IH.
Qed.

Lemma toLowerCase_app (a b : string) :
  toLowerCase (a ++ b) = toLowerCase a ++ toLowerCase b.
Proof. induction a as [|c a IH]; simpl; [reflexivity | now rewrite IH]. Qed.

Lemma endsWith_app (x suffix : string) : endsWith suffix (x ++ suffix) = true.
Proof.
  unfold endsWith. rewrite str_length_app.
  replace (String.length x + String.length suffix - String.length suffix)
    with (String.length x) by lia.
  rewrite drop_app_length, String.eqb_refl.
  apply andb_true_iff; split; [apply Nat.leb_le; lia | reflexivity].
Qed.

Lemma trim_idem (s : string) : trim (trim s) = trim s.
Proof.
  unfold trim at 2 3. destruct (trimEnd (dropWhile isWhiteSpace s)) as [|c t] eqn:E;
    [reflexivity|].
  assert (Hc : isWhiteSpace c = false).
  { destruct (dropWhile isWhiteSpace s) as [|x y] eqn:D; [discriminate|].
    pose proof (trimEnd_head _ _ _ _ E) as ->. now apply dropWhile_head in D. }
  unfold trim. cbn [dropWhile]. rewrite Hc, <- E. apply trimEnd_idem.
Qed.

Lemma trimEnd_app_keep (y z : string) :
  isEmpty (trimEnd z) = false -> trimEnd (y ++ z) = y ++ trimEnd z.
Proof.
  intros Hz. induction y as [|c y IH]; [reflexivity|].
  cbn [append trimEnd]. rewrite IH.
  destruct (y ++ trimEnd z) eqn:E; [|reflexivity].
  destruct y; [|discriminate]. cbn [append] in E. now rewrite E in Hz.
Qed.

Lemma trim_app_fixed (y z : string) :
  trim y = y -> isEmpty y = false ->
  trimEnd z = z -> isEmpty z = false ->
  trim (y ++ z) = y ++ z.
Proof.
  intros Hy Hny Hz Hnz. destruct y as [|c y']; [discriminate|].
  pose proof (trim_head _ _ _ Hy) as Hc.
  unfold trim. cbn [append dropWhile]. rewrite Hc.
  change (String c (y' ++ z)) with (String c y' ++ z).
  rewrite trimEnd_app_keep by (now rewrite Hz). now rewrite Hz.
Qed.

Lemma safeNameCh_header (c : ascii) :
  isSafeNameCh c = true ->
  negb (Ascii.eqb c DQUOTE || Ascii.eqb c BACKSLASH || Ascii.eqb c "/"
        || Ascii.eqb c CR || Ascii.eqb c LF) = true.
Proof. destruct c as [[] [] [] [] [] [] [] []]; intros H; try reflexivity; discriminate H. Qed.

(** What [sanitizeFilename] returns, in all its cases. *)
Lemma sanitizeFilename_facts (name : string) :
  allb isSafeNameCh (sanitizeFilename name) = true
  /\ endsWith ".vtt" (toLowerCase (sanitizeFilename name)) = true
  /\ trim (sanitizeFilename name) = sanitizeFilename name.
Proof.
  unfold sanitizeFilename.
  pose proof (allb_trim _ _ (replaceUnsafeRuns_safe name false)) as Hsafe.
  pose proof (trim_idem (replaceUnsafeRuns false name)) as Htrim.
  set (cleaned := trim (replaceUnsafeRuns false name)) in *.
  destruct (endsWith ".vtt" (toLowerCase cleaned)) eqn:E; [auto|].
  split; [|split].
  - rewrite allb_app. apply andb_true_iff. split; [|reflexivity].
    now destruct (isEmpty cleaned).
  - rewrite toLowerCase_app. apply endsWith_app.
  - apply trim_app_fixed; try reflexivity.
    + now destruct (isEmpty cleaned).
    + destruct (isEmpty cleaned) eqn:Ec; [reflexivity | exact Ec].
Qed.

(** X1: whatever the requested name, the file name put into the
    content-disposition header is made of letters, digits, underscore, dot,
    hyphen, parentheses and spaces only, so it holds no double quote,
    backslash, slash or line break, and it ends with the extension vtt in
    some letter case. *)
Theorem sanitizeFilename_is_header_safe (name : string) :
  allb isSafeNameCh (sanitizeFilename name) = true
  /\ allb (fun c => negb (Ascii.eqb c DQUOTE || Ascii.eqb c BACKSLASH
                          || Ascii.eqb c "/" || Ascii.eqb c CR
                          || Ascii.eqb c LF))
          (sanitizeFilename name) = true
  /\ endsWith ".vtt" (toLowerCase (sanitizeFilename name)) = true
  /\ isEmpty (sanitizeFilename name) = false.
Proof.
  destruct (sanitizeFilename_facts name) as (Hsafe & Hend & _).
  split; [exact Hsafe|]. split; [|split; [exact Hend|]].
  - revert Hsafe. apply allb_impl, safeNameCh_header.
  - destruct (sanitizeFilename name); [discriminate Hend | reflexivity].
Qed.

Lemma sanitizeFilename_fixed (s : string) :
  allb isSafeNameCh s = true -> trim s = s ->
  endsWith ".vtt" (toLowerCase s) = true ->
  sanitizeFilename s = s.
Proof.
  intros Hsafe Htrim Hend. unfold sanitizeFilename.
  rewrite replaceUnsafeRuns_id by exact Hsafe. now rewrite Htrim, Hend.
Qed.

(** X2: sanitizing a sanitized name changes nothing. *)
Theorem sanitizeFilename_idempotent (name : string) :
  sanitizeFilename (sanitizeFilename name) = sanitizeFilename name.
Proof.
  destruct (sanitizeFilename_facts name) as (Hsafe & Hend & Htrim).
  now apply sanitizeFilename_fixed.
Qed.

(** X3: a name that is already clean (safe characters only, no white space
    at its ends, ending with the extension in any letter case) is kept as
    it is, upper case included; a name that cleans to nothing, as the empty
    name or a name of spaces does, becomes captions.vtt. *)
Theorem sanitizeFilename_keeps_clean_names :
  (forall s : string,
     allb isSafeNameCh s = true -> trim s = s ->
     endsWith ".vtt" (toLowerCase s) = true ->
     sanitizeFilename s = s)
  /\ (forall name : string,
        isEmpty (trim (replaceUnsafeRuns false name)) = true ->
        sanitizeFilename name = "captions.vtt")
  /\ (forall name : string,
        allb (fun c => Ascii.eqb c " ") name = true ->
        sanitizeFilename name = "captions.vtt").
Proof.
  split; [exact sanitizeFilename_fixed|].
  assert (Hempty : forall name,
             isEmpty (trim (replaceUnsafeRuns false name)) = true ->
             sanitizeFilename name = "captions.vtt").
  { intros name H. unfold sanitizeFilename. apply isEmpty_true in H.
    rewrite H. reflexivity. }
  split; [exact Hempty|].
  intros name H. apply Hempty.
  rewrite replaceUnsafeRuns_id.
  - destruct (isEmpty (trim name)) eqn:E; [reflexivity|]. exfalso.
    assert (Hws : allb isWhiteSpace name = true).
    { revert H. apply allb_impl. intros c Hc. apply Ascii.eqb_eq in Hc. now subst. }
    unfold trim in E.
    assert (Hd : allb isWhiteSpace (dropWhile isWhiteSpace name) = true)
      by now apply allb_dropWhile.
    apply trimEnd_empty_iff in Hd. rewrite Hd in E. discriminate.
  - revert H. apply allb_impl. intros c Hc. apply Ascii.eqb_eq in Hc. now subst.
Qed.

Lemma sanitizeFilename_keeps_clean_names_witness :
  sanitizeFilename "My Talk (final).VTT" = "My Talk (final).VTT"
  /\ sanitizeFilename "///" = "_.vtt"
  /\ sanitizeFilename EmptyString = "captions.vtt"
  /\ sanitizeFilename "   " = "captions.vtt".
Proof.
  pose proof sanitizeFilename_keeps_clean_names as (H1 & H2 & H3).
  split; [exact (H1 "My Talk (final).VTT" eq_refl eq_refl eq_refl)|].
  split; [reflexivity|].
  split; [exact (H2 EmptyString eq_refl) | exact (H3 "   " eq_refl)].
Defined.

(** ** buildItalicsList *)

Lemma splitLines_no_LF (s : string) :
  Forall (fun l => allb (fun c => negb (Ascii.eqb c LF)) l = true) (splitLines s).
Proof.
  induction s as [|c s IH]; [repeat constructor|].
  cbn [splitLines]. destruct (Ascii.eqb c LF) eqn:E; [now constructor|].
  destruct (Ascii.eqb c CR && startsWith NL s); [exact IH|].
  destruct (splitLines s) as [|h t]; inversion IH; subst; constructor; trivial;
    cbn [allb]; rewrite E; trivial.
Qed.

Lemma splitLines_blank (s : string) :
  allb isWhiteSpace s = true ->
  Forall (fun l => allb isWhiteSpace l = true) (splitLines s).
Proof.
  induction s as [|c s IH]; intros H; [repeat constructor|].
  cbn [allb] in H. apply andb_true_iff in H as (Hc & Hs). specialize (IH Hs).
  cbn [splitLines]. destruct (Ascii.eqb c LF); [now constructor|].
  destruct (Ascii.eqb c CR && startsWith NL s); [exact IH|].
  destruct (splitLines s) as [|h t]; inversion IH; subst; constructor; trivial;
    cbn [allb]; rewrite Hc; trivial.
Qed.

Lemma trim_blank (s : string) : allb isWhiteSpace s = true -> trim s = EmptyString.
Proof.
  intros H. unfold trim. apply trimEnd_empty_iff. now apply allb_dropWhile.
Qed.

Lemma buildItalicsList_blank (italicsText : string) :
  allb isWhiteSpace italicsText = true -> buildItalicsList italicsText = [].
Proof.
  intros H. unfold buildItalicsList.
  pose proof (splitLines_blank _ H) as Hall.
  induction Hall as [|l ls Hl Hls IH]; [reflexivity|].
  cbn [map filter]. now rewrite (trim_blank _ Hl).
Qed.

(** X4: every phrase handed to the matcher builder is non-empty, has no
    white space at its ends and no line feed inside; a phrase text of white
    space only (blank lines, empty text) gives no phrase at all, and the
    conversion then runs with the no-match rule. *)
Theorem buildItalicsList_gives_clean_phrases :
  (forall italicsText : string,
     Forall (fun p => isEmpty p = false /\ trim p = p
                      /\ allb (fun c => negb (Ascii.eqb c LF)) p = true)
            (buildItalicsList italicsText))
  /\ (forall italicsText : string,
        allb isWhiteSpace italicsText = true ->
        buildItalicsList italicsText = []
        /\ forall sbv : string, convert sbv italicsText = sbvToVtt sbv None).
Proof.
  split.
  - intros italicsText. unfold buildItalicsList. apply Forall_forall.
    intros p Hp. apply filter_In in Hp as (Hin & Hne).
    apply in_map_iff in Hin as (l & <- & Hl).
    split; [now apply negb_true_iff in Hne|]. split; [apply trim_idem|].
    apply allb_trim.
    pose proof (splitLines_no_LF italicsText) as H.
    rewrite Forall_forall in H. now apply H.
  - intros italicsText H. pose proof (buildItalicsList_blank _ H) as Hnil.
    split; [exact Hnil|]. intros sbv. unfold convert. now rewrite Hnil.
Qed.

Lemma buildItalicsList_witness :
  buildItalicsList (" " ++ NL ++ String TAB EmptyString ++ CRLF) = []
  /\ buildItalicsList ("  New York  " ++ CRLF ++ NL ++ "art") = ["New York"; "art"].
Proof.
  split; [|reflexivity].
  apply (proj2 buildItalicsList_gives_clean_phrases
           (" " ++ NL ++ String TAB EmptyString ++ CRLF) eq_refl).
Defined.

(** ** normalizeHour and the fields of a time line *)

Lemma padStart_long (n : nat) (c : ascii) (s : string) :
  n <= String.length s -> padStart n c s = s.
Proof.
  intros H. unfold padStart.
  replace (n - String.length s) with 0 by lia. reflexivity.
Qed.

Lemma normalizeHour_shape (ts h m s ms : string) :
  TimestampShape ts h m s ms ->
  normalizeHour ts = padStart 2 "0" h ++ ":" ++ m ++ ":" ++ s ++ "." ++ ms
  /\ TimestampShape (normalizeHour ts) (padStart 2 "0" h) m s ms.
Proof.
  intros Hshape. pose proof Hshape as (_ & Hh & Hhd & Hrest).
  assert (E : normalizeHour ts
              = padStart 2 "0" h ++ ":" ++ m ++ ":" ++ s ++ "." ++ ms).
  { unfold normalizeHour. now rewrite (matchTimestamp_complete _ _ _ _ _ Hshape). }
  split; [exact E|]. unfold TimestampShape.
  split; [exact E|]. split; [rewrite padStart_length; lia|].
  split; [now apply padStart_digits | exact Hrest].
Qed.

(** X5: normalizing a timestamp twice gives what normalizing it once
    gives, whatever the text is. *)
Theorem normalizeHour_idempotent (ts : string) :
  normalizeHour (normalizeHour ts) = normalizeHour ts.
Proof.
  destruct (matchTimestamp ts) as [[[h m] g3]|] eqn:E.
  - apply matchTimestamp_sound in E as (s & ms & _ & Hshape).
    destruct (normalizeHour_shape _ _ _ _ _ Hshape) as (Hout & Hshape').
    destruct (normalizeHour_shape _ _ _ _ _ Hshape') as (Hout' & _).
    rewrite Hout', Hout. rewrite padStart_long; [reflexivity|].
    rewrite padStart_length. lia.
  - unfold normalizeHour at 2. rewrite E. unfold normalizeHour. now rewrite E.
Qed.

Lemma stampCh_plain (c : ascii) :
  isStampCh c = true ->
  isWhiteSpace c = false /\ isComma c = false /\ isDotCh c = true.
Proof.
  destruct c as [[] [] [] [] [] [] [] []]; intros H;
    try discriminate H; repeat split.
Qed.

Lemma shape_chars (ts h m s ms : string) :
  TimestampShape ts h m s ms ->
  allb isStampCh ts = true /\ isEmpty ts = false.
Proof.
  intros (-> & Hh & Hhd & _ & Hmd & _ & Hsd & _ & Hmsd).
  assert (Hd : forall x, allb isDigit x = true -> allb isStampCh x = true).
  { intros x. apply allb_impl. intros c Hc. unfold isStampCh. now rewrite Hc. }
  split.
  - rewrite !allb_app, (Hd h), (Hd m), (Hd s), (Hd ms) by assumption.
    reflexivity.
  - destruct h; [simpl in Hh; lia | reflexivity].
Qed.

Lemma dropWhile_app_all (p : ascii -> bool) (w y : string) :
  allb p w = true -> dropWhile p (w ++ y) = dropWhile p y.
Proof.
  induction w as [|c w IH]; [trivial|]. cbn [allb append dropWhile]. intros H.
  apply andb_true_iff in H as (Hc & Hw). now rewrite Hc, IH.
Qed.

Lemma trimEnd_plain (s : string) :
  allb (fun c => negb (isWhiteSpace c)) s = true -> trimEnd s = s.
Proof.
  induction s as [|c s IH]; [trivial|]. cbn [allb trimEnd]. intros H.
  apply andb_true_iff in H as (Hc & Hs). apply negb_true_iff in Hc.
  rewrite IH by exact Hs. destruct s; [now rewrite Hc | reflexivity].
Qed.

(** White space around a text that has none at its own ends is trimmed
    away. *)
Lemma trim_padded (w1 w2 : string) (c : ascii) (y : string) :
  allb isWhiteSpace w1 = true -> allb isWhiteSpace w2 = true ->
  isWhiteSpace c = false -> trimEnd (String c y) = String c y ->
  trim (w1 ++ String c y ++ w2) = String c y.
Proof.
  intros H1 H2 Hc Hy. unfold trim. rewrite dropWhile_app_all by exact H1.
  cbn [append dropWhile]. rewrite Hc.
  change (String c (y ++ w2)) with (String c y ++ w2).
  now rewrite trimEnd_app_ws.
Qed.

Lemma stamp_plain (ts h m s ms : string) :
  TimestampShape ts h m s ms ->
  exists c y, ts = String c y /\ isWhiteSpace c = false
              /\ trimEnd ts = ts /\ noComma ts = true /\ allb isDotCh ts = true.
Proof.
  intros Hshape. destruct (shape_chars _ _ _ _ _ Hshape) as (Hch & Hne).
  destruct ts as [|c y]; [discriminate|]. exists c, y.
  split; [reflexivity|].
  assert (Hws : allb (fun c => negb (isWhiteSpace c)) (String c y) = true).
  { revert Hch. apply allb_impl. intros x Hx.
    apply stampCh_plain in Hx as (-> & _). reflexivity. }
  split. { cbn [allb] in Hws. apply andb_true_iff in Hws as (Hws & _).
           now apply negb_true_iff in Hws. }
  split; [now apply trimEnd_plain|]. split.
  - revert Hch. apply allb_impl. intros x Hx.
    apply stampCh_plain in Hx as (_ & -> & _). reflexivity.
  - revert Hch. apply allb_impl. intros x Hx. now apply stampCh_plain in Hx.
Qed.

Lemma matchTimeLine_split (c : ascii) (pre post : string) :
  isDotCh c = true -> noComma pre = true -> allb isDotCh pre = true ->
  isEmpty post = false -> allb isDotCh post = true ->
  matchTimeLine (String c (pre ++ "," ++ post)) = Some (String c pre, post).
Proof.
  intros Hc Hn Hd He Hp. unfold matchTimeLine. rewrite Hc.
  now rewrite timeLineFrom_split.
Qed.

(** X6: a time line made of two well-shaped timestamps around a comma,
    with any blanks before, between and after them, is cut into exactly
    those two timestamps, and the cue gets them with the hour padded to two
    digits. *)
Theorem time_line_of_two_timestamps
  (w1 w2 w3 w4 t1 t2 h1 m1 s1 ms1 h2 m2 s2 ms2 : string) :
  TimestampShape t1 h1 m1 s1 ms1 -> TimestampShape t2 h2 m2 s2 ms2 ->
  Forall (fun w => allb (fun c => isWhiteSpace c && isDotCh c) w = true)
         [w1; w2; w3; w4] ->
  exists a b,
    matchTimeLine (trim (w1 ++ t1 ++ w2 ++ "," ++ w3 ++ t2 ++ w4)) = Some (a, b)
    /\ trim a = t1 /\ trim b = t2
    /\ normalizeHour (trim a)
       = padStart 2 "0" h1 ++ ":" ++ m1 ++ ":" ++ s1 ++ "." ++ ms1
    /\ normalizeHour (trim b)
       = padStart 2 "0" h2 ++ ":" ++ m2 ++ ":" ++ s2 ++ "." ++ ms2.
Proof.
  intros Hs1 Hs2 Hw.
  assert (Hpad : forall w, allb (fun c => isWhiteSpace c && isDotCh c) w = true ->
                   allb isWhiteSpace w = true /\ allb isDotCh w = true
                   /\ noComma w = true).
  { intros w H. repeat split; revert H; apply allb_impl; intros c Hc;
      apply andb_true_iff in Hc as (Hc1 & Hc2); trivial.
    destruct c as [[] [] [] [] [] [] [] []]; try reflexivity; discriminate Hc1. }
  inversion Hw as [|? ? Hw1 Hw']; subst. inversion Hw' as [|? ? Hw2 Hw'']; subst.
  inversion Hw'' as [|? ? Hw3 Hw''']; subst. inversion Hw''' as [|? ? Hw4 _]; subst.
  apply Hpad in Hw1 as (Hw1 & _), Hw2 as (Hw2 & Hd2 & Hc2),
    Hw3 as (Hw3 & Hd3 & _), Hw4 as (Hw4 & _).
  destruct (stamp_plain _ _ _ _ _ Hs1) as (c1 & y1 & E1 & Hc1 & Ht1 & Hn1 & Hdot1).
  destruct (stamp_plain _ _ _ _ _ Hs2) as (c2 & y2 & E2 & Hc2' & Ht2 & Hn2 & Hdot2).
  exists (t1 ++ w2), (w3 ++ t2).
  assert (Ha : trim (t1 ++ w2) = t1).
  { rewrite E1 in Ht1 |- *.
    apply (trim_padded EmptyString w2 c1 y1); trivial. }
  assert (Hb : trim (w3 ++ t2) = t2).
  { rewrite E2 in Ht2 |- *.
    rewrite <- (str_app_nil_r (String c2 y2)) at 1.
    apply (trim_padded w3 EmptyString c2 y2); trivial. }
  split; [|split; [exact Ha|split; [exact Hb|]]].
  - assert (Hcore : trim (w1 ++ t1 ++ w2 ++ "," ++ w3 ++ t2 ++ w4)
                    = t1 ++ w2 ++ "," ++ w3 ++ t2).
    { replace (w1 ++ t1 ++ w2 ++ "," ++ w3 ++ t2 ++ w4)
        with (w1 ++ (t1 ++ w2 ++ "," ++ w3 ++ t2) ++ w4)
        by (now rewrite !str_app_assoc).
      rewrite E1.
      apply (trim_padded w1 w4 c1 (y1 ++ w2 ++ "," ++ w3 ++ t2)); trivial.
      change (String c1 (y1 ++ w2 ++ "," ++ w3 ++ t2))
        with (String c1 y1 ++ w2 ++ "," ++ w3 ++ t2).
      rewrite <- !str_app_assoc. rewrite trimEnd_app_keep.
      - now rewrite Ht2.
      - rewrite Ht2, E2. reflexivity. }
    rewrite Hcore, E1, <- (str_app_assoc (String c1 y1) w2).
    rewrite E1 in Hdot1, Hn1. cbn [allb noComma] in Hdot1, Hn1.
    apply andb_true_iff in Hdot1 as (Hdc & Hdy), Hn1 as (_ & Hny).
    apply (matchTimeLine_split c1 (y1 ++ w2) (w3 ++ t2)); trivial.
    + unfold noComma in *. rewrite allb_app. now rewrite Hny, Hc2.
    + rewrite allb_app. now rewrite Hdy, Hd2.
    + rewrite E2. now destruct w3.
    + rewrite allb_app. now rewrite Hd3, Hdot2.
  - rewrite Ha, Hb.
    split; [apply (normalizeHour_shape _ _ _ _ _ Hs1)
           | apply (normalizeHour_shape _ _ _ _ _ Hs2)].
Qed.

Lemma time_line_of_two_timestamps_witness :
  exists a b,
    matchTimeLine (trim (" " ++ "0:00:02.000" ++ " " ++ "," ++ " "
                         ++ "10:00:05.500" ++ " ")) = Some (a, b)
    /\ trim a = "0:00:02.000" /\ trim b = "10:00:05.500"
    /\ normalizeHour (trim a) = "00:00:02.000"
    /\ normalizeHour (trim b) = "10:00:05.500".
Proof.
  apply (time_line_of_two_timestamps " " " " " " " "
           "0:00:02.000" "10:00:05.500" "0" "00" "02" "000" "10" "00" "05" "500").
  - unfold TimestampShape; simpl; repeat split; lia.
  - unfold TimestampShape; simpl; repeat split; lia.
  - repeat constructor.
Defined.

(** ** Documents *)

Lemma skipBlank_app_blank (seps rest : list string) :
  Forall (fun l => isBlank l = true) seps ->
  skipBlank (seps ++ rest)%list = skipBlank rest.
Proof.
  induction 1 as [|l seps Hl _ IH]; [reflexivity|].
  cbn [app skipBlank]. now rewrite Hl.
Qed.

Lemma collectCue_all (texts : list string) :
  Forall (fun l => isBlank l = false) texts ->
  collectCue texts = texts /\ skipn (List.length texts) texts = [].
Proof.
  induction 1 as [|l texts Hl _ (IH1 & IH2)]; [split; reflexivity|].
  cbn [collectCue List.length skipn]. now rewrite Hl, IH1.
Qed.

Lemma validCue_not_blank (c : CueBlock) :
  ValidCue c -> isBlank (timeLine c) = false.
Proof.
  intros (H & _). unfold isBlank. now destruct (trim (timeLine c)).
Qed.

Lemma skipBlank_document (cs : list CueBlock) :
  Forall ValidCue cs -> skipBlank (documentLines cs) = documentLines cs.
Proof.
  destruct 1 as [|c cs Hc _]; [reflexivity|].
  cbn [documentLines flat_map blockLines app skipBlank].
  now rewrite (validCue_not_blank c Hc).
Qed.

(** One turn of the loop on a valid block writes the text of its cue. *)
Lemma sbvLoop_block (fuel : nat) (italicsRe : option RegExp) (c : CueBlock)
  (rest : list string) (vtt txt : string) :
  ValidCue c -> separators c <> [] \/ rest = [] ->
  cueText italicsRe c = Ok txt ->
  sbvLoop (S fuel) italicsRe (blockLines c ++ rest)%list vtt
  = sbvLoop fuel italicsRe (skipBlank rest) (vtt ++ txt).
Proof.
  intros (Ht & Htexts & Hseps) Hsep Htxt. unfold cueText in Htxt.
  destruct (mapM _ (textLines c)) as [ls| |] eqn:Hls; try discriminate.
  cbn [bind] in Htxt. injection Htxt as <-.
  unfold blockLines. cbn [app]. rewrite <- app_assoc.
  destruct (separators c) as [|sep seps] eqn:Es.
  - destruct Hsep as [Hsep | ->]; [congruence|]. cbn [app]. rewrite app_nil_r.
    cbn [sbvLoop]. rewrite Ht.
    destruct (trim (timeLine c)) eqn:E; [discriminate|]. cbn [isEmpty].
    destruct (collectCue_all _ Htexts) as (-> & ->).
    rewrite Hls. reflexivity.
  - inversion Hseps as [|? ? Hb Hbs]; subst. cbn [app].
    rewrite (sbvLoop_cue fuel italicsRe (timeLine c) (startField c) (endField c)
               (textLines c) sep (seps ++ rest) ls vtt Ht Htexts Hb Hls).
    now rewrite skipBlank_app_blank.
Qed.

Lemma cueText_total (italicsRe : option RegExp) (c : CueBlock) :
  exists txt, cueText italicsRe c = Ok txt.
Proof.
  unfold cueText.
  destruct (mapM_italicize_total italicsRe (textLines c)) as (ls & ->).
  cbn [bind]. eauto.
Qed.

Lemma sbvLoop_document (italicsRe : option RegExp) (cs : list CueBlock) :
  Forall ValidCue cs -> Separated cs ->
  forall (fuel : nat) (vtt : string),
    List.length (documentLines cs) < fuel ->
    exists blocks,
      mapM (cueText italicsRe) cs = Ok blocks
      /\ sbvLoop fuel italicsRe (documentLines cs) vtt
         = Ok (vtt ++ String.concat EmptyString blocks).
Proof.
  induction 1 as [|c cs Hc Hcs IH]; intros Hsep fuel vtt Hf.
  - exists []. split; [reflexivity|]. destruct fuel; [simpl in Hf; lia|].
    simpl. now rewrite str_app_nil_r.
  - destruct Hsep as (Hlast & Hsep).
    destruct (cueText_total italicsRe c) as (txt & Htxt).
    destruct fuel as [|fuel]; [lia|].
    cbn [documentLines flat_map] in Hf |- *. rewrite length_app in Hf.
    assert (Hlen : 1 <= List.length (blockLines c)) by (simpl; lia).
    destruct (IH Hsep fuel (vtt ++ txt)) as (blocks & Hblocks & Hloop);
      [unfold documentLines; lia|].
    exists (txt :: blocks). split.
    + cbn [mapM]. rewrite Htxt, Hblocks. reflexivity.
    + rewrite (sbvLoop_block fuel italicsRe c _ vtt txt Hc); trivial.
      * fold (documentLines cs). rewrite skipBlank_document by exact Hcs.
        rewrite Hloop, str_app_assoc. f_equal. f_equal.
        destruct blocks; simpl; [now rewrite str_app_nil_r | reflexivity].
      * destruct Hlast as [-> | Hne]; [now right | now left].
Qed.

Lemma allb_join (p : ascii -> bool) (sep : string) (ls : list string) :
  allb p sep = true -> Forall (fun l => allb p l = true) ls ->
  allb p (join sep ls) = true.
Proof.
  intros Hsep. induction 1 as [|l ls Hl Hls IH]; [reflexivity|].
  unfold join in *. cbn [String.concat]. destruct ls as [|l' ls]; [exact Hl|].
  rewrite !allb_app. now rewrite Hl, Hsep, IH.
Qed.

Lemma replaceCRLF_no_LF (s : string) :
  allb (fun c => negb (Ascii.eqb c LF)) s = true -> replaceCRLF s = s.
Proof.
  induction s as [|c s IH]; [trivial|]. cbn [allb]. intros H.
  apply andb_true_iff in H as (Hc & Hs). specialize (IH Hs).
  cbn [replaceCRLF]. destruct s as [|d r]; [reflexivity|].
  cbn [allb] in Hs. apply andb_true_iff in Hs as (Hd & _).
  apply negb_true_iff in Hd. rewrite Hd, andb_false_r. now rewrite IH.
Qed.

Lemma replaceCRLF_no_CR (l r : string) :
  allb (fun c => negb (Ascii.eqb c CR)) l = true ->
  replaceCRLF (l ++ r) = l ++ replaceCRLF r.
Proof.
  induction l as [|c l IH]; [trivial|]. cbn [allb]. intros H.
  apply andb_true_iff in H as (Hc & Hl). specialize (IH Hl).
  apply negb_true_iff in Hc.
  cbn [append replaceCRLF]. rewrite Hc. cbn [andb].
  destruct (l ++ r) as [|d t] eqn:E; [|now rewrite IH].
  destruct l; [|discriminate]. cbn [append] in E. now subst.
Qed.

Lemma replaceCR_no_CR_id (s : string) :
  allb (fun c => negb (Ascii.eqb c CR)) s = true -> replaceCR s = s.
Proof.
  induction s as [|c s IH]; [trivial|]. cbn [allb replaceCR]. intros H.
  apply andb_true_iff in H as (Hc & Hs). apply negb_true_iff in Hc.
  now rewrite Hc, IH.
Qed.

Lemma replaceCR_app (a b : string) :
  replaceCR (a ++ b) = replaceCR a ++ replaceCR b.
Proof. induction a as [|c a IH]; simpl; [reflexivity | now rewrite IH]. Qed.

Lemma noLineBreak_parts (l : string) :
  noLineBreak l = true ->
  allb (fun c => negb (Ascii.eqb c CR)) l = true
  /\ allb (fun c => negb (Ascii.eqb c LF)) l = true.
Proof.
  intros H. split; revert H; apply allb_impl; intros c Hc;
    apply andb_true_iff in Hc as (H1 & H2); assumption.
Qed.

Lemma splitLF_app (x r : string) :
  allb (fun c => negb (Ascii.eqb c LF)) x = true ->
  splitLF (x ++ NL ++ r) = x :: splitLF r.
Proof.
  induction x as [|c x IH]; [reflexivity|]. cbn [allb]. intros H.
  apply andb_true_iff in H as (Hc & Hx). apply negb_true_iff in Hc.
  cbn [append splitLF]. rewrite Hc. now rewrite (IH Hx).
Qed.

Lemma splitLF_one (x : string) :
  allb (fun c => negb (Ascii.eqb c LF)) x = true -> splitLF x = [x].
Proof.
  induction x as [|c x IH]; [reflexivity|]. cbn [allb]. intros H.
  apply andb_true_iff in H as (Hc & Hx). apply negb_true_iff in Hc.
  cbn [splitLF]. rewrite Hc. now rewrite (IH Hx).
Qed.

Lemma splitLF_join (l : string) (ls : list string) :
  Forall (fun x => allb (fun c => negb (Ascii.eqb c LF)) x = true) (l :: ls) ->
  splitLF (join NL (l :: ls)) = l :: ls.
Proof.
  revert l; induction ls as [|l' ls IH]; intros l H; inversion H; subst.
  - now apply splitLF_one.
  - unfold join in *. cbn [String.concat]. rewrite splitLF_app by assumption.
    f_equal. now apply IH.
Qed.

(** The three line-ending conventions give the same normalized text. *)
Lemma normalize_line_endings (ls : list string) :
  Forall (fun l => noLineBreak l = true) ls ->
  replaceCR (replaceCRLF (join CRLF ls)) = join NL ls
  /\ replaceCR (replaceCRLF (join (String CR EmptyString) ls)) = join NL ls
  /\ replaceCR (replaceCRLF (join NL ls)) = join NL ls.
Proof.
  intros H.
  assert (Hcr : Forall (fun l => allb (fun c => negb (Ascii.eqb c CR)) l = true) ls)
    by (eapply Forall_impl; [|exact H]; intros l Hl; now apply noLineBreak_parts).
  assert (Hlf : Forall (fun l => allb (fun c => negb (Ascii.eqb c LF)) l = true) ls)
    by (eapply Forall_impl; [|exact H]; intros l Hl; now apply noLineBreak_parts).
  assert (Hnl : replaceCR (join NL ls) = join NL ls)
    by (apply replaceCR_no_CR_id, allb_join; [reflexivity | exact Hcr]).
  split; [|split].
  - rewrite <- Hnl. f_equal. clear Hnl Hlf H.
    induction Hcr as [|l ls Hl Hls IH]; [reflexivity|].
    unfold join in *. cbn [String.concat]. destruct ls as [|l' ls].
    + rewrite <- (str_app_nil_r l) at 1. rewrite replaceCRLF_no_CR by exact Hl.
      apply str_app_nil_r.
    + rewrite replaceCRLF_no_CR by exact Hl. f_equal.
      change (CRLF ++ String.concat CRLF (l' :: ls))
        with (String CR (String LF (String.concat CRLF (l' :: ls)))).
      cbn [replaceCRLF]. cbn [Ascii.eqb Bool.eqb andb]. now rewrite IH.
  - rewrite replaceCRLF_no_LF by (apply allb_join; [reflexivity | exact Hlf]).
    clear Hnl Hlf H.
    induction Hcr as [|l ls Hl Hls IH]; [reflexivity|].
    unfold join in *. cbn [String.concat]. destruct ls as [|l' ls].
    + now apply replaceCR_no_CR_id.
    + rewrite !replaceCR_app, IH, (replaceCR_no_CR_id l) by exact Hl. reflexivity.
  - rewrite <- (str_app_nil_r (join NL ls)) at 1.
    rewrite replaceCRLF_no_CR by (apply allb_join; [reflexivity | exact Hcr]).
    cbn [replaceCRLF]. now rewrite str_app_nil_r.
Qed.

(** X7: a document made of valid cue blocks, each but the last followed by
    at least one blank line, converts to the header followed by the text of
    every cue, one block per cue and in the order of the document; nothing
    is dropped, merged or reordered. *)
Theorem well_formed_document_gives_every_cue
  (italicsRe : option RegExp) (cs : list CueBlock) :
  Forall ValidCue cs -> Separated cs ->
  Forall (fun l => noLineBreak l = true) (documentLines cs) ->
  exists blocks,
    mapM (cueText italicsRe) cs = Ok blocks
    /\ List.length blocks = List.length cs
    /\ sbvToVtt (join NL (documentLines cs)) italicsRe
       = Ok (trimEnd ("WEBVTT" ++ NL ++ NL ++ String.concat EmptyString blocks)
             ++ NL).
Proof.
  intros Hvalid Hsep Hlines.
  assert (Hnorm : splitLF (replaceCR (replaceCRLF (join NL (documentLines cs))))
                  = match documentLines cs with
                    | [] => [EmptyString]
                    | _ => documentLines cs
                    end).
  { destruct (normalize_line_endings _ Hlines) as (_ & _ & ->).
    destruct (documentLines cs) as [|l ls] eqn:E; [reflexivity|].
    apply splitLF_join. eapply Forall_impl; [|exact Hlines].
    intros x Hx. now apply noLineBreak_parts. }
  destruct (sbvLoop_document italicsRe cs Hvalid Hsep
              (S (List.length (documentLines cs))) ("WEBVTT" ++ NL ++ NL))
    as (blocks & Hblocks & Hloop); [lia|].
  exists blocks. split; [exact Hblocks|]. split.
  - clear Hloop. revert blocks Hblocks. clear.
    induction cs as [|c cs IH]; intros blocks H; cbn [mapM] in H.
    + now injection H as <-.
    + destruct (cueText italicsRe c); try discriminate. cbn [bind] in H.
      destruct (mapM (cueText italicsRe) cs) as [bs| |]; try discriminate.
      cbn [bind] in H. injection H as <-. simpl. now rewrite (IH bs).
  - unfold sbvToVtt. rewrite Hnorm.
    destruct (documentLines cs) as [|l ls] eqn:E.
    + cbn [List.length] in Hloop |- *.
      rewrite (sbvLoop_skip italicsRe 1 EmptyString [] _ (or_introl eq_refl)).
      rewrite Hloop. reflexivity.
    + rewrite Hloop. reflexivity.
Qed.

Lemma well_formed_document_witness :
  exists blocks,
    mapM (cueText None)
      [mkCue "0:00:00.000,0:00:02.000" "0:00:00.000" "0:00:02.000"
         ["Hello"; "there"] [EmptyString; " "];
       mkCue "0:00:02.000,0:00:04.000" "0:00:02.000" "0:00:04.000"
         ["Goodbye"] []] = Ok blocks
    /\ List.length blocks = 2
    /\ sbvToVtt
         (join NL ["0:00:00.000,0:00:02.000"; "Hello"; "there"; EmptyString;
                   " "; "0:00:02.000,0:00:04.000"; "Goodbye"]) None
       = Ok (trimEnd ("WEBVTT" ++ NL ++ NL ++ String.concat EmptyString blocks)
             ++ NL).
Proof.
  apply (well_formed_document_gives_every_cue None
           [mkCue "0:00:00.000,0:00:02.000" "0:00:00.000" "0:00:02.000"
              ["Hello"; "there"] [EmptyString; " "];
            mkCue "0:00:02.000,0:00:04.000" "0:00:02.000" "0:00:04.000"
              ["Goodbye"] []]).
  - repeat constructor.
  - simpl. split; [right; discriminate | split; [now left | exact I]].
  - repeat constructor.
Defined.

Lemma sbvLoop_extends (italicsRe : option RegExp) (fuel : nat) :
  forall (lines : list string) (vtt out : string),
    sbvLoop fuel italicsRe lines vtt = Ok out -> exists tail, out = vtt ++ tail.
Proof.
  induction fuel as [|fuel IH]; intros lines vtt out H; [discriminate|].
  destruct lines as [|l rest]; cbn [sbvLoop] in H.
  - injection H as <-. exists EmptyString. now rewrite str_app_nil_r.
  - destruct (isEmpty (trim l)); [now apply IH in H|].
    destruct (matchTimeLine (trim l)) as [[a b]|]; [|now apply IH in H].
    destruct (mapM _ (collectCue rest)) as [ls| |]; try discriminate.
    cbn [bind] in H. apply IH in H as (tail & ->).
    rewrite str_app_assoc. eauto.
Qed.

Lemma trimEnd_keeps_prefix (a x : string) :
  trimEnd a = a -> exists y, trimEnd (a ++ x) = a ++ y.
Proof.
  intros Ha. destruct (isEmpty (trimEnd x)) eqn:E.
  - apply isEmpty_true, trimEnd_empty_iff in E.
    exists EmptyString. now rewrite trimEnd_app_ws, str_app_nil_r.
  - exists (trimEnd x). now apply trimEnd_app_keep.
Qed.

(** X8: whatever the document and the rule, the output starts with the
    WEBVTT header and ends with exactly one line feed: the text before that
    line feed has no white space at its end. *)
Theorem output_has_header_and_one_trailing_newline
  (sbv : string) (italicsRe : option RegExp) :
  exists body,
    sbvToVtt sbv italicsRe = Ok ("WEBVTT" ++ body ++ NL)
    /\ trimEnd ("WEBVTT" ++ body) = "WEBVTT" ++ body.
Proof.
  destruct (sbvToVtt_total italicsRe sbv) as (out & Hout).
  unfold sbvToVtt in *.
  destruct (sbvLoop _ _ _ _) as [vtt| |] eqn:Hloop; try discriminate.
  cbn [bind] in Hout |- *. apply sbvLoop_extends in Hloop as (tail & ->).
  rewrite !str_app_assoc.
  destruct (trimEnd_keeps_prefix "WEBVTT" (NL ++ NL ++ tail) eq_refl) as (y & Hy).
  exists y. split.
  - rewrite Hy. now rewrite str_app_assoc.
  - rewrite <- Hy. apply trimEnd_idem.
Qed.

Lemma noComma_replaceCRLF (s : string) :
  noComma s = true -> noComma (replaceCRLF s) = true.
Proof.
  remember (String.length s) as n eqn:Hn.
  assert (Hle : String.length s <= n) by lia. clear Hn.
  revert s Hle; induction n as [|n IH]; intros s Hle H.
  - destruct s; [reflexivity | simpl in Hle; lia].
  - destruct s as [|c [|d r]]; try reflexivity; [exact H|].
    unfold noComma in *. cbn [allb] in H.
    apply andb_true_iff in H as (Hc & H). pose proof H as H'.
    apply andb_true_iff in H' as (Hd & Hr).
    cbn [replaceCRLF]. destruct (Ascii.eqb c CR && Ascii.eqb d LF).
    + cbn [allb]. rewrite IH; [reflexivity | simpl in Hle |- *; lia | exact Hr].
    + cbn [allb]. rewrite Hc. apply (IH (String d r)); [simpl in Hle |- *; lia|].
      cbn [allb]. now rewrite Hd, Hr.
Qed.

Lemma noComma_replaceCR (s : string) :
  noComma s = true -> noComma (replaceCR s) = true.
Proof.
  unfold noComma. induction s as [|c s IH]; [trivial|]. cbn [allb replaceCR].
  intros H. apply andb_true_iff in H as (Hc & Hs). rewrite (IH Hs).
  destruct (Ascii.eqb c CR); [reflexivity | now rewrite Hc].
Qed.

Lemma noComma_splitLF (s : string) :
  noComma s = true -> Forall (fun l => noComma l = true) (splitLF s).
Proof.
  unfold noComma. induction s as [|c s IH]; intros H; [repeat constructor|].
  cbn [allb] in H. apply andb_true_iff in H as (Hc & Hs). specialize (IH Hs).
  cbn [splitLF]. destruct (Ascii.eqb c LF); [now constructor|].
  destruct (splitLF s) as [|h t]; inversion IH; subst; constructor; trivial;
    cbn [allb]; rewrite Hc; trivial.
Qed.

Lemma sbvLoop_no_time_line (italicsRe : option RegExp) (lines : list string) :
  Forall (fun l => noComma l = true) lines ->
  forall (fuel : nat) (vtt : string),
    List.length lines < fuel -> sbvLoop fuel italicsRe lines vtt = Ok vtt.
Proof.
  induction 1 as [|l lines Hl _ IH]; intros fuel vtt Hf.
  - destruct fuel; [simpl in Hf; lia | reflexivity].
  - destruct fuel as [|fuel]; [lia|]. simpl in Hf.
    rewrite sbvLoop_skip; [apply IH; lia|].
    right. apply matchTimeLine_no_comma. unfold noComma. now apply allb_trim.
Qed.

(** X9: a document without any comma, so also an empty one and one of
    blank lines only, converts to the bare header: no cue is written and
    nothing fails. *)
Theorem document_without_comma_gives_bare_header
  (sbv : string) (italicsRe : option RegExp) :
  noComma sbv = true -> sbvToVtt sbv italicsRe = Ok ("WEBVTT" ++ NL).
Proof.
  intros H. unfold sbvToVtt.
  rewrite sbvLoop_no_time_line; [reflexivity | | lia].
  now apply noComma_splitLF, noComma_replaceCR, noComma_replaceCRLF.
Qed.

Lemma document_without_comma_witness :
  sbvToVtt ("just some notes" ++ CRLF ++ NL ++ "no cues here") None
  = Ok ("WEBVTT" ++ NL).
Proof. now apply document_without_comma_gives_bare_header. Defined.

(** X10: the same lines joined by CR LF, by CR alone or by LF convert to
    the same output. *)
Theorem line_endings_do_not_matter
  (ls : list string) (italicsRe : option RegExp) :
  Forall (fun l => noLineBreak l = true) ls ->
  sbvToVtt (join CRLF ls) italicsRe = sbvToVtt (join NL ls) italicsRe
  /\ sbvToVtt (join (String CR EmptyString) ls) italicsRe
     = sbvToVtt (join NL ls) italicsRe.
Proof.
  intros H. destruct (normalize_line_endings ls H) as (H1 & H2 & H3).
  unfold sbvToVtt. now rewrite H1, H2, H3.
Qed.

Lemma line_endings_witness :
  sbvToVtt (join CRLF ["0:00:00.000,0:00:02.000"; "Hello"; EmptyString]) None
  = sbvToVtt (join NL ["0:00:00.000,0:00:02.000"; "Hello"; EmptyString]) None
  /\ sbvToVtt (join (String CR EmptyString)
                 ["0:00:00.000,0:00:02.000"; "Hello"; EmptyString]) None
     = sbvToVtt (join NL ["0:00:00.000,0:00:02.000"; "Hello"; EmptyString]) None.
Proof.
  apply (line_endings_do_not_matter
           ["0:00:00.000,0:00:02.000"; "Hello"; EmptyString] None).
  repeat constructor.
Defined.

(** ** Letter case of the phrases *)

Lemma canonicalize_white_space (c : ascii) :
  isWhiteSpace (canonicalize c) = isWhiteSpace c.
Proof. destruct c as [[] [] [] [] [] [] [] []]; reflexivity. Qed.

Lemma sameFold_white_space (c d : ascii) :
  canonicalize c = canonicalize d -> isWhiteSpace c = isWhiteSpace d.
Proof.
  intros H. rewrite <- (canonicalize_white_space c), H.
  apply canonicalize_white_space.
Qed.

Lemma sameFold_refl (s : string) : sameFold s s.
Proof. induction s; simpl; auto. Qed.

Lemma sameFold_length (p q : string) :
  sameFold p q -> String.length p = String.length q.
Proof.
  revert q; induction p as [|c p IH]; intros [|d q] H; simpl in *;
    try contradiction; [reflexivity|].
  destruct H as (_ & H). now rewrite (IH q).
Qed.

Lemma sameFold_app (a p q : string) : sameFold p q -> sameFold (a ++ p) (a ++ q).
Proof. intros H. induction a; simpl; auto. Qed.

Lemma sameFold_dropWhile (p q : string) :
  sameFold p q -> sameFold (dropWhile isWhiteSpace p) (dropWhile isWhiteSpace q).
Proof.
  revert q; induction p as [|c p IH]; intros [|d q] H; simpl in H;
    try contradiction; [exact I|].
  destruct H as (Hc & H). cbn [dropWhile].
  rewrite <- (sameFold_white_space c d Hc).
  destruct (isWhiteSpace c); [now apply IH | simpl; auto].
Qed.

Lemma sameFold_trimEnd (p q : string) :
  sameFold p q -> sameFold (trimEnd p) (trimEnd q).
Proof.
  revert q; induction p as [|c p IH]; intros [|d q] H; simpl in H;
    try contradiction; [exact I|].
  destruct H as (Hc & H). specialize (IH q H). cbn [trimEnd].
  rewrite <- (sameFold_white_space c d Hc).
  destruct (trimEnd p) as [|x p'], (trimEnd q) as [|y q']; simpl in IH;
    try contradiction.
  - destruct (isWhiteSpace c); simpl; auto.
  - simpl; auto.
Qed.

Lemma sameFold_replaceWsRuns (p q : string) (inRun : bool) :
  sameFold p q -> sameFold (replaceWsRuns inRun p) (replaceWsRuns inRun q).
Proof.
  revert q inRun; induction p as [|c p IH]; intros [|d q] inRun H; simpl in H;
    try contradiction; [exact I|].
  destruct H as (Hc & H). cbn [replaceWsRuns].
  rewrite <- (sameFold_white_space c d Hc).
  destruct (isWhiteSpace c).
  - destruct inRun; [now apply IH|]. apply sameFold_app. now apply IH.
  - simpl. split; [exact Hc | now apply IH].
Qed.

Lemma sameFold_norm (p q : string) :
  sameFold p q ->
  sameFold (replaceWsRuns false (trim p)) (replaceWsRuns false (trim q)).
Proof.
  intros H. apply sameFold_replaceWsRuns. unfold trim.
  now apply sameFold_trimEnd, sameFold_dropWhile.
Qed.

Lemma matchTerms_sameFold (p q : string) :
  sameFold p q ->
  forall s, matchTerms (litTerms p) s = matchTerms (litTerms q) s.
Proof.
  revert q; induction p as [|c p IH]; intros [|d q] H s; simpl in H;
    try contradiction; [reflexivity|].
  destruct H as (Hc & H). cbn [litTerms matchTerms atomMatches].
  rewrite Hc. destruct s as [|x s]; [reflexivity|]. now rewrite (IH q H).
Qed.

Lemma insertByLength_sameFold (a b : string) (l l' : list string) :
  sameFold a b -> Forall2 sameFold l l' ->
  Forall2 sameFold (insertByLength a l) (insertByLength b l').
Proof.
  intros Hab. induction 1 as [|x y l l' Hxy Hl IH]; cbn [insertByLength].
  - now repeat constructor.
  - rewrite (sameFold_length _ _ Hab), (sameFold_length _ _ Hxy).
    destruct (String.length y <=? String.length b)%nat; now repeat constructor.
Qed.

Lemma sortLongestFirst_sameFold (ps qs : list string) :
  Forall2 sameFold ps qs ->
  Forall2 sameFold (sortLongestFirst ps) (sortLongestFirst qs).
Proof.
  induction 1; cbn [sortLongestFirst]; [constructor|].
  now apply insertByLength_sameFold.
Qed.

(** Two compiled rules whose alternatives match the same prefixes, in the
    same order, find the same matches. *)
Section SameCandidates.

Variables re1 re2 : RegExp.
Hypothesis Hsame :
  forall s, flat_map (fun alt => matchTerms alt s) (alternatives re1)
            = flat_map (fun alt => matchTerms alt s) (alternatives re2).

Lemma matchPhrase_same (s : string) : matchPhrase re1 s = matchPhrase re2 s.
Proof. unfold matchPhrase. now rewrite Hsame. Qed.

Lemma matchAt_same (i : nat) (s : string) : matchAt re1 i s = matchAt re2 i s.
Proof.
  unfold matchAt. rewrite matchPhrase_same.
  destruct s as [|c rest]; [reflexivity|]. now rewrite (matchPhrase_same rest).
Qed.

Lemma execFrom_same (s : string) : forall i, execFrom re1 i s = execFrom re2 i s.
Proof.
  induction s as [|c s IH]; intros i; cbn [execFrom]; rewrite matchAt_same;
    [reflexivity|].
  now rewrite IH.
Qed.

Lemma matchAllFrom_same (s : string) (fuel : nat) :
  forall i, matchAllFrom fuel re1 s i = matchAllFrom fuel re2 s i.
Proof.
  induction fuel as [|fuel IH]; intros i; [reflexivity|].
  cbn [matchAllFrom]. unfold regExpExec. rewrite execFrom_same.
  destruct (if (String.length s <? i)%nat then None else execFrom re2 i (drop i s));
    [|reflexivity].
  now rewrite IH.
Qed.

Lemma italicize_same (rawLine : string) :
  italicizeLineWholeWords rawLine (Some re1)
  = italicizeLineWholeWords rawLine (Some re2).
Proof.
  cbn [italicizeLineWholeWords]. unfold matchAll. now rewrite matchAllFrom_same.
Qed.

End SameCandidates.

Lemma candidates_sameFold (ps qs : list string) :
  Forall2 sameFold ps qs ->
  forall s,
    flat_map (fun alt => matchTerms alt s)
      (map (fun q => litTerms (replaceWsRuns false (trim q))) ps)
    = flat_map (fun alt => matchTerms alt s)
        (map (fun q => litTerms (replaceWsRuns false (trim q))) qs).
Proof.
  induction 1 as [|p q ps qs Hpq _ IH]; intros s; [reflexivity|].
  cbn [map flat_map]. rewrite IH.
  now rewrite (matchTerms_sameFold _ _ (sameFold_norm _ _ Hpq)).
Qed.

(** X11: matching does not look at the letter case of the phrases: two
    phrase lists that differ in letter case only give the same output on
    every line. *)
Theorem phrase_letter_case_is_ignored
  (ps qs : list string) (rawLine : string) :
  Forall2 sameFold ps qs ->
  italicizeWith ps rawLine = italicizeWith qs rawLine.
Proof.
  intros H. unfold italicizeWith.
  destruct H as [|p q ps qs Hpq Hrest]; [reflexivity|].
  rewrite !buildItalicsRegex_compiled. cbn [bind].
  apply italicize_same. cbn [alternatives].
  apply candidates_sameFold, sortLongestFirst_sameFold. now constructor.
Qed.

Lemma phrase_letter_case_witness :
  italicizeWith ["Art"; "SHOW"] "the art show" = italicizeWith ["aRT"; "show"] "the art show"
  /\ italicizeWith ["Art"; "SHOW"] "the art show" = Ok "the <i>art</i> <i>show</i>".
Proof.
  split; [|reflexivity].
  apply (phrase_letter_case_is_ignored ["Art"; "SHOW"] ["aRT"; "show"]).
  repeat constructor.
Defined.

(** ** A phrase taken literally *)

Lemma take_app_length (a b : string) : take (String.length a) (a ++ b) = a.
Proof. induction a as [|c a IH]; simpl; [now destruct b | now rewrite IH]. Qed.

Lemma take_all (a : string) : take (String.length a) a = a.
Proof. induction a as [|c a IH]; simpl; [reflexivity | now rewrite IH]. Qed.

Lemma drop_all (a : string) : drop (String.length a) a = EmptyString.
Proof. induction a as [|c a IH]; simpl; [reflexivity | exact IH]. Qed.

Lemma trim_plain (p : string) : noWhiteSpace p = true -> trim p = p.
Proof.
  intros H. unfold trim.
  assert (Hd : dropWhile isWhiteSpace p = p).
  { destruct p as [|c p]; [reflexivity|]. unfold noWhiteSpace in H.
    cbn [allb] in H. apply andb_true_iff in H as (Hc & _).
    apply negb_true_iff in Hc. cbn [dropWhile]. now rewrite Hc. }
  rewrite Hd. now apply trimEnd_plain.
Qed.

Lemma replaceWsRuns_plain (p : string) :
  noWhiteSpace p = true -> replaceWsRuns false p = p.
Proof.
  unfold noWhiteSpace. induction p as [|c p IH]; [trivial|].
  cbn [allb replaceWsRuns]. intros H. apply andb_true_iff in H as (Hc & Hp).
  apply negb_true_iff in Hc. now rewrite Hc, IH.
Qed.

Lemma buildItalicsRegex_plain (p : string) :
  noWhiteSpace p = true ->
  buildItalicsRegex [p] = Ok (Some (mkRegExp [litTerms p])).
Proof.
  intros H. rewrite buildItalicsRegex_compiled. cbn [sortLongestFirst insertByLength map].
  now rewrite trim_plain, replaceWsRuns_plain.
Qed.

Lemma canonicalize_eqb_refl (c : ascii) :
  Ascii.eqb (canonicalize c) (canonicalize c) = true.
Proof. apply Ascii.eqb_refl. Qed.

Lemma matchTerms_self (p r : string) :
  matchTerms (litTerms p) (p ++ r) = [String.length p].
Proof.
  induction p as [|c p IH]; [reflexivity|].
  cbn [litTerms append matchTerms atomMatches String.length].
  now rewrite canonicalize_eqb_refl, IH.
Qed.

Lemma execFrom_hit (re : RegExp) (i : nat) (s b q : string) :
  matchAt re i s = Some (b, q) -> execFrom re i s = Some (mkMatch i b q).
Proof. intros H. destruct s; cbn [execFrom]; now rewrite H. Qed.

Lemma execFrom_end (re : RegExp) (i : nat) :
  execFrom re (S i) EmptyString = None.
Proof. reflexivity. Qed.

Lemma matchAllFrom_done (re : RegExp) (s : string) (fuel i : nat) :
  regExpExec re s i = None -> matchAllFrom (S fuel) re s i = Ok [].
Proof. intros H. cbn [matchAllFrom]. now rewrite H. Qed.

Lemma matchAllFrom_step (re : RegExp) (s : string) (fuel i : nat) (m : MatchResult) :
  regExpExec re s i = Some m ->
  matchAllFrom (S fuel) re s i
  = (ms <- matchAllFrom fuel re s
             (if isEmpty (fullMatch m)
              then S (index m + String.length (fullMatch m))
              else index m + String.length (fullMatch m)) ;;
     Ok (m :: ms)).
Proof. intros H. cbn [matchAllFrom]. now rewrite H. Qed.

Section OnePhrase.

Variable p : string.
Hypothesis Hne : isEmpty p = false.

Let re : RegExp := mkRegExp [litTerms p].

Lemma matchPhrase_self (r : string) :
  matchPhrase re (p ++ r) = if lookahead r then Some (String.length p) else None.
Proof.
  unfold matchPhrase, re. cbn [alternatives flat_map].
  rewrite matchTerms_self, app_nil_r. cbn [find].
  now rewrite drop_app_length.
Qed.

Lemma length_p : exists k, String.length p = S k.
Proof. destruct p; [discriminate | simpl; eauto]. Qed.

(** The phrase at the start of the line. *)
Lemma exec_at_start (r : string) :
  lookahead r = true ->
  regExpExec re (p ++ r) 0 = Some (mkMatch 0 EmptyString p).
Proof.
  intros Hr. unfold regExpExec. cbn [Nat.ltb Nat.leb drop].
  apply execFrom_hit. unfold matchAt. cbn [Nat.eqb].
  now rewrite matchPhrase_self, Hr, take_app_length.
Qed.

(** The phrase after a boundary character [c] that follows [pre]. *)
Lemma exec_after_boundary (pre : string) (c : ascii) (r : string) :
  isEmpty pre = false -> isWordCh c = false -> lookahead r = true ->
  regExpExec re (pre ++ String c (p ++ r)) (String.length pre)
  = Some (mkMatch (String.length pre) (String c EmptyString) p).
Proof.
  intros Hpre Hc Hr. unfold regExpExec.
  assert (Hlt : (String.length (pre ++ String c (p ++ r)) <? String.length pre)%nat
                = false)
    by (apply Nat.ltb_ge; rewrite str_length_app; lia).
  rewrite Hlt, drop_app_length. apply execFrom_hit. unfold matchAt.
  destruct pre as [|x pre']; [discriminate|]. cbn [String.length Nat.eqb].
  unfold isNotWordCh. rewrite Hc. cbn [negb].
  now rewrite matchPhrase_self, Hr, take_app_length.
Qed.

Lemma exec_at_end (s : string) :
  isEmpty s = false -> regExpExec re s (String.length s) = None.
Proof.
  intros Hs. unfold regExpExec. rewrite Nat.ltb_irrefl, drop_all.
  destruct s; [discriminate|]. apply execFrom_end.
Qed.

Lemma alone_on_line :
  italicizeLineWholeWords p (Some re) = Ok ("<i>" ++ escapeHtml p ++ "</i>").
Proof.
  cbn [italicizeLineWholeWords]. unfold matchAll.
  replace (String.length p + 2) with (S (S (String.length p))) by lia.
  pose proof (exec_at_start EmptyString eq_refl) as H0.
  rewrite str_app_nil_r in H0. rewrite (matchAllFrom_step _ _ _ _ _ H0).
  cbn [fullMatch leftBoundary phrase index append Nat.add]. rewrite Hne.
  rewrite matchAllFrom_done by (now apply exec_at_end).
  cbn [bind fold_left italicizeStep index leftBoundary phrase String.length Nat.add].
  unfold slice, sliceFrom. cbn [Nat.sub take drop append escapeHtml].
  rewrite Nat.sub_0_r, take_all, drop_all.
  cbn [escapeHtml]. now rewrite !str_app_assoc, str_app_nil_r.
Qed.

Lemma twice_on_line (c : ascii) :
  isWordCh c = false ->
  italicizeLineWholeWords (p ++ String c p) (Some re)
  = Ok ("<i>" ++ escapeHtml p ++ "</i>" ++ escapeHtml (String c EmptyString)
        ++ "<i>" ++ escapeHtml p ++ "</i>").
Proof.
  intros Hc. cbn [italicizeLineWholeWords]. unfold matchAll.
  set (line := p ++ String c p).
  assert (Hlen : String.length line = String.length p + S (String.length p))
    by (unfold line; now rewrite str_length_app).
  replace (String.length line + 2) with (S (S (S (String.length line - 1))))
    by lia.
  assert (Hla : lookahead (String c p) = true)
    by (cbn [lookahead]; unfold isNotWordCh; now rewrite Hc).
  rewrite (matchAllFrom_step _ _ _ _ _ (exec_at_start _ Hla)). fold line.
  cbn [fullMatch leftBoundary phrase index append Nat.add]. rewrite Hne.
  pose proof (exec_after_boundary p c EmptyString Hne Hc eq_refl) as H1.
  rewrite str_app_nil_r in H1. fold line in H1.
  rewrite (matchAllFrom_step _ _ _ _ _ H1).
  cbn [fullMatch leftBoundary phrase index append isEmpty].
  replace (String.length p + String.length (String c p)) with (String.length line)
    by (rewrite Hlen; reflexivity).
  rewrite matchAllFrom_done
    by (apply exec_at_end; unfold line; now destruct p).
  cbn [bind fold_left italicizeStep index leftBoundary phrase String.length Nat.add].
  unfold slice, sliceFrom. cbn [Nat.sub take drop append escapeHtml].
  rewrite Nat.sub_0_r.
  replace (String.length p + 1 - String.length p) with 1 by lia.
  replace (String.length p + 1 + String.length p - (String.length p + 1))
    with (String.length p) by lia.
  unfold line.
  rewrite take_app_length, drop_app_length, <- !drop_drop, drop_app_length.
  cbn [take drop]. rewrite take_all, drop_all.
  cbn [escapeHtml]. now rewrite !str_app_assoc, !str_app_nil_r.
Qed.

End OnePhrase.

(** X12: a phrase without white space is taken literally, whatever regex
    metacharacters it holds: alone on a line it is wrapped as a whole, its
    text escaped for HTML and nothing else. *)
Theorem phrase_alone_is_wrapped_whole (p : string) :
  isEmpty p = false -> noWhiteSpace p = true ->
  italicizeWith [p] p = Ok ("<i>" ++ escapeHtml p ++ "</i>").
Proof.
  intros Hne Hws. unfold italicizeWith.
  rewrite buildItalicsRegex_plain by exact Hws. cbn [bind].
  now apply alone_on_line.
Qed.

Lemma phrase_alone_witness :
  italicizeWith ["a.b*(c)+[d]?^$|\{}"] "a.b*(c)+[d]?^$|\{}"
  = Ok ("<i>" ++ escapeHtml "a.b*(c)+[d]?^$|\{}" ++ "</i>").
Proof. apply phrase_alone_is_wrapped_whole; reflexivity. Defined.

(** X13: the character after a phrase is only looked at, not taken: when a
    phrase without white space stands twice with a single boundary
    character in between, both occurrences are wrapped and the boundary
    character stays outside the tags. *)
Theorem adjacent_phrases_are_both_wrapped (p : string) (c : ascii) :
  isEmpty p = false -> noWhiteSpace p = true -> isWordCh c = false ->
  italicizeWith [p] (p ++ String c p)
  = Ok ("<i>" ++ escapeHtml p ++ "</i>" ++ escapeHtml (String c EmptyString)
        ++ "<i>" ++ escapeHtml p ++ "</i>").
Proof.
  intros Hne Hws Hc. unfold italicizeWith.
  rewrite buildItalicsRegex_plain by exact Hws. cbn [bind].
  now apply twice_on_line.
Qed.

Lemma adjacent_phrases_witness :
  italicizeWith ["art"] "art&art" = Ok "<i>art</i>&amp;<i>art</i>".
Proof. apply (adjacent_phrases_are_both_wrapped "art" "&"); reflexivity. Defined.

(** ** The request handler *)

(** X14: the handler answers every request of the declared body type, with
    status 200, 400 or 405.  The converted text is sent only for a POST
    whose body was read and holds a non-empty sbvText, and then always: the
    answer has status 200, carries what the core makes of the two texts,
    and names a file whose name is safe inside the quoted header value and
    ends with the extension. *)
Theorem onRequest_always_answers (request : Request) :
  exists response,
    onRequest request = Ok response
    /\ (status response = 200 \/ status response = 400 \/ status response = 405)
    /\ (forall vtt, body response = VttBody vtt ->
          status response = 200 /\ method request = "POST"
          /\ exists b name,
               parsedBody request = Some b
               /\ isEmpty (orEmpty (sbvText b)) = false
               /\ convert (orEmpty (sbvText b)) (orEmpty (italicsText b)) = Ok vtt
               /\ headers response
                  = [("content-type", "text/vtt; charset=utf-8");
                     ("content-disposition",
                      "attachment; filename=" ++ String DQUOTE name
                        ++ String DQUOTE EmptyString);
                     ("cache-control", "no-store")]
               /\ allb isSafeNameCh name = true
               /\ endsWith ".vtt" (toLowerCase name) = true)
    /\ (forall b, method request = "POST" -> parsedBody request = Some b ->
          isEmpty (orEmpty (sbvText b)) = false ->
          exists vtt, body response = VttBody vtt).
Proof.
  unfold onRequest.
  destruct (String.eqb (method request) "OPTIONS") eqn:Eo.
  { apply String.eqb_eq in Eo. eexists. split; [reflexivity|].
    split; [now left|]. split; [discriminate|].
    intros b Hm. rewrite Hm in Eo. discriminate. }
  destruct (String.eqb (method request) "POST") eqn:Ep; cbn [negb].
  2:{ apply String.eqb_neq in Ep. eexists. split; [reflexivity|].
      split; [now right; right|]. split; [discriminate|].
      intros b Hm. contradiction. }
  apply String.eqb_eq in Ep.
  destruct (parsedBody request) as [b|] eqn:Eb.
  2:{ eexists. split; [reflexivity|]. split; [now right; left|].
      split; discriminate. }
  destruct (isEmpty (orEmpty (sbvText b))) eqn:Es.
  { eexists. split; [reflexivity|]. split; [now right; left|].
    split; [discriminate|]. intros b' _ Hb' Hne. injection Hb' as <-. congruence. }
  cbv zeta.
  destruct (buildItalicsRegex_total (buildItalicsList (orEmpty (italicsText b))))
    as (re & Hre).
  destruct (sbvToVtt_total re (orEmpty (sbvText b))) as (vtt & Hvtt).
  rewrite Hre. cbn [bind]. rewrite Hvtt. cbn [bind].
  eexists. split; [reflexivity|]. split; [now left|]. split.
  - intros vtt' Hbody. cbn [body vttResponse] in Hbody. injection Hbody as <-.
    split; [reflexivity|]. split; [exact Ep|].
    exists b. eexists. split; [reflexivity|]. split; [exact Es|].
    split; [unfold convert; now rewrite Hre|].
    split; [reflexivity|].
    split; apply sanitizeFilename_facts.
  - intros b' _ _ _. now exists vtt.
Qed.

Lemma onRequest_witness :
  exists response,
    onRequest (mkRequest "POST"
                 (Some (mkBody (Some "0:00:00.000,0:00:02.000")
                               None (Some "my talk"))))
    = Ok response
    /\ status response = 200
    /\ exists vtt, body response = VttBody vtt.
Proof.
  destruct (onRequest_always_answers
              (mkRequest "POST"
                 (Some (mkBody (Some "0:00:00.000,0:00:02.000")
                               None (Some "my talk")))))
    as (response & Hr & _ & Hvtt & Hpost).
  exists response. split; [exact Hr|].
  destruct (Hpost _ eq_refl eq_refl eq_refl) as (vtt & Hbody).
  split; [exact (proj1 (Hvtt vtt Hbody)) | now exists vtt].
Defined.

(** ** Letter case of the line *)

Lemma canonicalize_wordCh (c : ascii) : isWordCh (canonicalize c) = isWordCh c.
Proof. destruct c as [[] [] [] [] [] [] [] []]; reflexivity. Qed.

Lemma sameFold_wordCh (c d : ascii) :
  canonicalize c = canonicalize d -> isWordCh c = isWordCh d.
Proof.
  intros H. rewrite <- (canonicalize_wordCh c), H. apply canonicalize_wordCh.
Qed.

Lemma atomMatches_sameFold (a : Atom) (c d : ascii) :
  canonicalize c = canonicalize d -> atomMatches a c = atomMatches a d.
Proof.
  intros H. destruct a as [l|]; cbn [atomMatches]; [now rewrite H|].
  now apply sameFold_white_space.
Qed.

Lemma sameFold_drop (k : nat) (s1 s2 : string) :
  sameFold s1 s2 -> sameFold (drop k s1) (drop k s2).
Proof.
  revert s1 s2; induction k as [|k IH]; intros [|c s1] [|d s2] H; simpl in *;
    try contradiction; auto.
  destruct H as (_ & H). now apply IH.
Qed.

Lemma sameFold_take (k : nat) (s1 s2 : string) :
  sameFold s1 s2 -> sameFold (take k s1) (take k s2).
Proof.
  revert s1 s2; induction k as [|k IH]; intros [|c s1] [|d s2] H; simpl in *;
    try contradiction; auto.
  destruct H as (Hc & H). split; [exact Hc | now apply IH].
Qed.

Lemma sameFold_run (a : Atom) (s1 s2 : string) :
  sameFold s1 s2 ->
  String.length (takeWhile (atomMatches a) s1)
  = String.length (takeWhile (atomMatches a) s2).
Proof.
  revert s2; induction s1 as [|c s1 IH]; intros [|d s2] H; simpl in H;
    try contradiction; [reflexivity|].
  destruct H as (Hc & H). cbn [takeWhile].
  rewrite (atomMatches_sameFold a c d Hc).
  destruct (atomMatches a d); [simpl; now rewrite (IH s2) | reflexivity].
Qed.

Lemma matchTerms_line (ts : list Term) :
  forall s1 s2, sameFold s1 s2 -> matchTerms ts s1 = matchTerms ts s2.
Proof.
  induction ts as [|[a [|]] ts IH]; intros s1 s2 H; cbn [matchTerms].
  - reflexivity.
  - rewrite (sameFold_run a s1 s2 H). apply flat_map_ext. intros k.
    now rewrite (IH _ _ (sameFold_drop k _ _ H)).
  - destruct s1 as [|c s1], s2 as [|d s2]; simpl in H; try contradiction;
      [reflexivity|].
    destruct H as (Hc & H). rewrite (atomMatches_sameFold a c d Hc).
    now rewrite (IH _ _ H).
Qed.

Lemma lookahead_line (s1 s2 : string) :
  sameFold s1 s2 -> lookahead s1 = lookahead s2.
Proof.
  destruct s1 as [|c s1], s2 as [|d s2]; simpl; try contradiction; [reflexivity|].
  intros (Hc & _). unfold isNotWordCh. now rewrite (sameFold_wordCh c d Hc).
Qed.

Lemma find_pointwise {A : Type} (f g : A -> bool) (l : list A) :
  (forall x, f x = g x) -> find f l = find g l.
Proof.
  intros H. induction l as [|x l IH]; [reflexivity|]. cbn [find].
  now rewrite H, IH.
Qed.

Section SameLine.

Variable re : RegExp.

Lemma matchPhrase_line (s1 s2 : string) :
  sameFold s1 s2 -> matchPhrase re s1 = matchPhrase re s2.
Proof.
  intros H. unfold matchPhrase.
  rewrite (flat_map_ext (fun alt => matchTerms alt s1) (fun alt => matchTerms alt s2))
    by (intros alt; now apply matchTerms_line).
  apply find_pointwise. intros k. now apply lookahead_line, sameFold_drop.
Qed.

Lemma matchAt_line (i : nat) (s1 s2 : string) :
  sameFold s1 s2 ->
  match matchAt re i s1, matchAt re i s2 with
  | Some (b1, p1), Some (b2, p2) =>
      String.length b1 = String.length b2 /\ String.length p1 = String.length p2
  | None, None => True
  | _, _ => False
  end.
Proof.
  intros H. unfold matchAt. rewrite (matchPhrase_line s1 s2 H).
  destruct (if (i =? 0)%nat then matchPhrase re s2 else None) as [k|].
  - split; [reflexivity|]. now apply sameFold_length, sameFold_take.
  - destruct s1 as [|c s1], s2 as [|d s2]; simpl in H; try contradiction;
      [exact I|].
    destruct H as (Hc & H). unfold isNotWordCh.
    rewrite (sameFold_wordCh c d Hc), (matchPhrase_line s1 s2 H).
    destruct (negb (isWordCh d)); [|exact I].
    destruct (matchPhrase re s2) as [k|]; [|exact I].
    split; [reflexivity|]. now apply sameFold_length, sameFold_take.
Qed.

Lemma execFrom_line (s1 : string) :
  forall (s2 : string) (i : nat),
    sameFold s1 s2 ->
    option_map placeOf (execFrom re i s1) = option_map placeOf (execFrom re i s2).
Proof.
  induction s1 as [|c s1 IH]; intros [|d s2] i H; simpl in H; try contradiction;
    cbn [execFrom].
  - pose proof (matchAt_line i EmptyString EmptyString I) as M.
    destruct (matchAt re i EmptyString) as [[b p]|]; reflexivity.
  - pose proof (matchAt_line i (String c s1) (String d s2) H) as M.
    destruct (matchAt re i (String c s1)) as [[b1 p1]|],
             (matchAt re i (String d s2)) as [[b2 p2]|]; try contradiction.
    + destruct M as (M1 & M2). unfold placeOf. simpl. now rewrite M1, M2.
    + destruct H as (_ & H). now apply IH.
Qed.

Lemma regExpExec_line (s1 s2 : string) (i : nat) :
  sameFold s1 s2 ->
  option_map placeOf (regExpExec re s1 i) = option_map placeOf (regExpExec re s2 i).
Proof.
  intros H. unfold regExpExec. rewrite (sameFold_length _ _ H).
  destruct (String.length s2 <? i)%nat; [reflexivity|].
  now apply execFrom_line, sameFold_drop.
Qed.

Lemma isEmpty_length (s : string) : isEmpty s = (String.length s =? 0)%nat.
Proof. now destruct s. Qed.

Lemma matchAllFrom_line (s1 s2 : string) (fuel : nat) :
  sameFold s1 s2 ->
  forall i, placesOf (matchAllFrom fuel re s1 i)
            = placesOf (matchAllFrom fuel re s2 i).
Proof.
  intros H. induction fuel as [|fuel IH]; intros i; [reflexivity|].
  cbn [matchAllFrom]. pose proof (regExpExec_line s1 s2 i H) as E.
  destruct (regExpExec re s1 i) as [m1|], (regExpExec re s2 i) as [m2|];
    try discriminate; [|reflexivity].
  cbn [option_map] in E. injection E as Ei El Ep.
  unfold fullMatch. rewrite !isEmpty_length, !str_length_app, Ei, El, Ep.
  specialize (IH (if (String.length (leftBoundary m2)
                      + String.length (phrase m2) =? 0)%nat
                  then S (index m2 + (String.length (leftBoundary m2)
                                      + String.length (phrase m2)))
                  else index m2 + (String.length (leftBoundary m2)
                                   + String.length (phrase m2)))).
  unfold placesOf in *.
  destruct (matchAllFrom fuel re s1 _) as [ms1| |],
           (matchAllFrom fuel re s2 _) as [ms2| |];
    cbn [bind] in *; try discriminate; try reflexivity.
  injection IH as IH. cbn [map]. rewrite IH. unfold placeOf.
  now rewrite Ei, El, Ep.
Qed.

End SameLine.

(** X15: matching does not look at the letter case of the line either: on
    two lines that differ in letter case only, every rule finds its matches
    at the same indexes and with the same lengths. *)
Theorem line_letter_case_keeps_spans (re : RegExp) (line1 line2 : string) :
  sameFold line1 line2 ->
  exists ms1 ms2,
    matchAll re line1 = Ok ms1 /\ matchAll re line2 = Ok ms2
    /\ map placeOf ms1 = map placeOf ms2.
Proof.
  intros H. destruct (matchAll_total re line1) as (ms1 & H1).
  destruct (matchAll_total re line2) as (ms2 & H2).
  exists ms1, ms2. split; [exact H1|]. split; [exact H2|].
  pose proof (matchAllFrom_line re line1 line2 (String.length line1 + 2) H 0) as E.
  unfold matchAll in H1, H2. rewrite (sameFold_length _ _ H) in E at 2.
  rewrite H1, H2 in E.
  cbn [placesOf bind] in E. now injection E.
Qed.

Lemma line_letter_case_witness :
  exists ms1 ms2,
    matchAll (mkRegExp [litTerms "art"]) "Modern ART" = Ok ms1
    /\ matchAll (mkRegExp [litTerms "art"]) "modern art" = Ok ms2
    /\ map placeOf ms1 = map placeOf ms2.
Proof.
  apply (line_letter_case_keeps_spans _ "Modern ART" "modern art").
  repeat constructor.
Defined.

(** ** The longest phrase first *)

Lemma sortLongestFirst_perm (l : list string) : Permutation (sortLongestFirst l) l.
Proof.
  induction l as [|a l IH]; cbn [sortLongestFirst]; [reflexivity|].
  rewrite insertByLength_perm. now constructor.
Qed.

Lemma sortLongestFirst_sorted (l : list string) : LongestFirst (sortLongestFirst l).
Proof.
  induction l as [|a l IH]; cbn [sortLongestFirst]; [constructor|].
  now apply insertByLength_sorted.
Qed.

(** A phrase strictly longer than every other one comes first. *)
Lemma longest_comes_first (l : list string) (p : string) :
  In p l ->
  (forall q, In q l -> q <> p -> String.length q < String.length p) ->
  exists rest, sortLongestFirst l = p :: rest.
Proof.
  intros Hin Hlong.
  pose proof (sortLongestFirst_perm l) as Hperm.
  pose proof (sortLongestFirst_sorted l) as Hsorted.
  destruct (sortLongestFirst l) as [|h rest].
  - apply Permutation_nil in Hperm. subst. contradiction.
  - exists rest. f_equal.
    destruct (String.string_dec h p) as [E|E]; [exact E|]. exfalso.
    assert (Hh : In h l) by (apply (Permutation_in _ Hperm); now left).
    pose proof (Hlong h Hh E) as Hlt.
    apply (Permutation_in _ (Permutation_sym Hperm)) in Hin.
    destruct Hin as [Hp|Hp]; [congruence|].
    inversion Hsorted as [|? ? _ Hall]; subst.
    rewrite Forall_forall in Hall. specialize (Hall p Hp). lia.
Qed.

(** A line that is exactly the first alternative is wrapped whole, whatever
    the alternatives after it. *)
Lemma first_alternative_alone (p : string) (alts : list (list Term)) :
  isEmpty p = false ->
  italicizeLineWholeWords p (Some (mkRegExp (litTerms p :: alts)))
  = Ok ("<i>" ++ escapeHtml p ++ "</i>").
Proof.
  intros Hne. set (re := mkRegExp (litTerms p :: alts)).
  assert (Hphrase : matchPhrase re p = Some (String.length p)).
  { unfold matchPhrase, re. cbn [alternatives flat_map].
    pose proof (matchTerms_self p EmptyString) as H.
    rewrite str_app_nil_r in H. rewrite H. cbn [app find].
    now rewrite drop_all. }
  assert (H0 : regExpExec re p 0 = Some (mkMatch 0 EmptyString p)).
  { unfold regExpExec. cbn [Nat.ltb Nat.leb drop]. apply execFrom_hit.
    unfold matchAt. cbn [Nat.eqb]. now rewrite Hphrase, take_all. }
  assert (Hend : regExpExec re p (String.length p) = None).
  { unfold regExpExec. rewrite Nat.ltb_irrefl, drop_all.
    destruct p; [discriminate | apply execFrom_end]. }
  cbn [italicizeLineWholeWords]. unfold matchAll.
  replace (String.length p + 2) with (S (S (String.length p))) by lia.
  rewrite (matchAllFrom_step _ _ _ _ _ H0).
  cbn [fullMatch leftBoundary phrase index append Nat.add]. rewrite Hne.
  rewrite (matchAllFrom_done _ _ _ _ Hend).
  cbn [bind fold_left italicizeStep index leftBoundary phrase String.length Nat.add].
  unfold slice, sliceFrom. cbn [Nat.sub take drop append escapeHtml].
  rewrite Nat.sub_0_r, take_all, drop_all.
  cbn [escapeHtml]. now rewrite !str_app_assoc, str_app_nil_r.
Qed.

(** X16: the longest phrase wins: when one phrase without white space is
    strictly longer than every other phrase of the list, a line that is
    exactly that phrase is wrapped as a whole, in whatever order the phrases
    were given and even when shorter phrases match a part of it. *)
Theorem longest_phrase_is_wrapped_whole (phrases : list string) (p : string) :
  In p phrases -> isEmpty p = false -> noWhiteSpace p = true ->
  (forall q, In q phrases -> q <> p -> String.length q < String.length p) ->
  italicizeWith phrases p = Ok ("<i>" ++ escapeHtml p ++ "</i>").
Proof.
  intros Hin Hne Hws Hlong. unfold italicizeWith.
  destruct (longest_comes_first phrases p Hin Hlong) as (rest & Hsort).
  destruct phrases as [|a l]; [contradiction|].
  rewrite buildItalicsRegex_compiled, Hsort. cbn [bind map].
  rewrite trim_plain, replaceWsRuns_plain by exact Hws.
  now apply first_alternative_alone.
Qed.

Lemma longest_phrase_witness :
  italicizeWith ["New"; "York"; "New-York"] "New-York" = Ok "<i>New-York</i>".
Proof.
  apply (longest_phrase_is_wrapped_whole ["New"; "York"; "New-York"] "New-York");
    try reflexivity.
  - right; right; left; reflexivity.
  - intros q [<-|[<-|[<-|[]]]] Hq; simpl; try lia. congruence.
Defined.

(** ** Cue text that looks like a time line *)

(** X17: a time line that follows cue text without a blank line in between
    does not start a cue: it is taken as one more text line of the cue
    before it, and so are the lines after it, up to the next blank line. *)
Theorem time_line_without_blank_before_is_cue_text
  (italicsRe : option RegExp) (c1 c2 : CueBlock) (vtt : string) :
  ValidCue c1 -> ValidCue c2 -> separators c1 = [] ->
  exists ls,
    mapM (fun l => italicizeLineWholeWords l italicsRe)
         (textLines c1 ++ timeLine c2 :: textLines c2) = Ok ls
    /\ sbvLoop (S (List.length (blockLines c1 ++ blockLines c2)))
         italicsRe (blockLines c1 ++ blockLines c2) vtt
       = Ok (vtt ++ normalizeHour (trim (startField c1)) ++ " --> "
                 ++ normalizeHour (trim (endField c1)) ++ NL
                 ++ join NL ls ++ NL ++ NL).
Proof.
  intros H1 H2 Hsep.
  set (merged := mkCue (timeLine c1) (startField c1) (endField c1)
                   (textLines c1 ++ timeLine c2 :: textLines c2)
                   (separators c2)).
  assert (Hlines : (blockLines c1 ++ blockLines c2)%list = documentLines [merged]).
  { unfold documentLines, blockLines, merged. cbn [flat_map timeLine textLines separators].
    rewrite Hsep, !app_nil_r. cbn [app]. now rewrite <- !app_assoc. }
  assert (Hvalid : ValidCue merged).
  { destruct H1 as (Ht1 & Htx1 & _), H2 as (Ht2 & Htx2 & Hs2).
    pose proof (validCue_not_blank c2 (conj Ht2 (conj Htx2 Hs2))) as Hnb.
    unfold ValidCue, merged. cbn [timeLine startField endField textLines separators].
    split; [exact Ht1|]. split; [|exact Hs2].
    apply Forall_app. split; [exact Htx1 | now constructor]. }
  destruct (sbvLoop_document italicsRe [merged]
              (Forall_cons _ Hvalid (Forall_nil _))
              (conj (or_introl eq_refl) I)
              (S (List.length (documentLines [merged]))) vtt)
    as (blocks & Hblocks & Hloop); [lia|].
  cbn [mapM] in Hblocks. unfold cueText in Hblocks.
  cbn [textLines startField endField merged] in Hblocks.
  destruct (mapM _ (textLines c1 ++ timeLine c2 :: textLines c2)) as [ls| |];
    cbn [bind] in Hblocks; try discriminate.
  injection Hblocks as <-. exists ls. split; [reflexivity|].
  rewrite Hlines, Hloop. cbn [String.concat]. reflexivity.
Qed.

Lemma time_line_without_blank_witness :
  exists ls,
    mapM (fun l => italicizeLineWholeWords l None)
         (["Hello"] ++ "0:00:02.000,0:00:04.000" :: ["Goodbye"]) = Ok ls
    /\ sbvLoop 5 None
         ["0:00:00.000,0:00:02.000"; "Hello"; "0:00:02.000,0:00:04.000"; "Goodbye"]
         "WEBVTT"
       = Ok ("WEBVTT" ++ normalizeHour (trim "0:00:00.000") ++ " --> "
             ++ normalizeHour (trim "0:00:02.000") ++ NL
             ++ join NL ls ++ NL ++ NL).
Proof.
  apply (time_line_without_blank_before_is_cue_text None
           (mkCue "0:00:00.000,0:00:02.000" "0:00:00.000" "0:00:02.000" ["Hello"] [])
           (mkCue "0:00:02.000,0:00:04.000" "0:00:02.000" "0:00:04.000" ["Goodbye"] [])
           "WEBVTT"); try reflexivity; repeat constructor.
Defined.

(** ** No empty italics *)

Lemma matchTerms_lit_length (x s : string) (k : nat) :
  In k (matchTerms (litTerms x) s) -> k = String.length x.
Proof.
  revert s k; induction x as [|c x IH]; intros s k H; cbn [litTerms matchTerms] in H.
  - destruct H as [<-|[]]. reflexivity.
  - destruct s as [|d s]; [contradiction|].
    destruct (atomMatches (Lit c) d); [|contradiction].
    apply in_map_iff in H as (k' & <- & Hk'). simpl. f_equal. now apply IH in Hk'.
Qed.

Lemma norm_nonempty (p : string) :
  isEmpty (trim p) = false -> isEmpty (replaceWsRuns false (trim p)) = false.
Proof.
  destruct (trim p) as [|c r] eqn:E; [discriminate|]. intros _.
  apply trim_head in E. cbn [replaceWsRuns]. now rewrite E.
Qed.

Section NonEmptyPhrases.

Variable phrases : list string.
Hypothesis Hclean : Forall (fun p => isEmpty (trim p) = false) phrases.

Let re : RegExp :=
  mkRegExp (map (fun q => litTerms (replaceWsRuns false (trim q)))
                (sortLongestFirst phrases)).

Lemma matchPhrase_positive (s : string) (k : nat) :
  matchPhrase re s = Some k -> 1 <= k /\ k <= String.length s.
Proof.
  intros H. apply matchPhrase_spec in H as (Hk & _ & alt & Halt & Hin).
  split; [|exact Hk]. unfold re in Halt. cbn [alternatives] in Halt.
  apply in_map_iff in Halt as (q & <- & Hq).
  apply (Permutation_in _ (sortLongestFirst_perm phrases)) in Hq.
  rewrite Forall_forall in Hclean. specialize (Hclean q Hq).
  apply matchTerms_lit_length in Hin. subst k.
  apply isEmpty_false_length. now apply norm_nonempty.
Qed.

Lemma matchAt_positive (i : nat) (s b q : string) :
  matchAt re i s = Some (b, q) -> isEmpty q = false.
Proof.
  unfold matchAt. intros H.
  destruct (if (i =? 0)%nat then matchPhrase re s else None) as [k|] eqn:E.
  - destruct (i =? 0)%nat; [|discriminate].
    apply matchPhrase_positive in E as (Hk1 & Hk2). injection H as <- <-.
    apply isEmpty_false_length. rewrite take_length_exact; assumption.
  - destruct s as [|c rest]; [discriminate|].
    destruct (isNotWordCh c); [|discriminate].
    destruct (matchPhrase re rest) as [k|] eqn:Ek; [|discriminate].
    apply matchPhrase_positive in Ek as (Hk1 & Hk2). injection H as <- <-.
    apply isEmpty_false_length. rewrite take_length_exact; assumption.
Qed.

Lemma execFrom_positive (s : string) :
  forall (i : nat) (m : MatchResult),
    execFrom re i s = Some m -> isEmpty (phrase m) = false.
Proof.
  induction s as [|c s IH]; intros i m H; cbn [execFrom] in H.
  - destruct (matchAt re i EmptyString) as [[b q]|] eqn:E; [|discriminate].
    injection H as <-. now apply matchAt_positive in E.
  - destruct (matchAt re i (String c s)) as [[b q]|] eqn:E.
    + injection H as <-. now apply matchAt_positive in E.
    + now apply IH in H.
Qed.

Lemma matchAllFrom_positive (s : string) (fuel : nat) :
  forall (i : nat) (ms : list MatchResult),
    matchAllFrom fuel re s i = Ok ms ->
    Forall (fun m => isEmpty (phrase m) = false) ms.
Proof.
  induction fuel as [|fuel IH]; intros i ms H; cbn [matchAllFrom] in H;
    [discriminate|].
  destruct (regExpExec re s i) as [m|] eqn:E.
  - destruct (matchAllFrom fuel re s _) as [ms'| |] eqn:R; cbn [bind] in H;
      try discriminate.
    injection H as <-. constructor; [|now apply IH in R].
    unfold regExpExec in E. destruct (String.length s <? i)%nat; [discriminate|].
    now apply execFrom_positive in E.
  - injection H as <-. constructor.
Qed.

End NonEmptyPhrases.

(** X18: with the phrases that [buildItalicsList] makes of a phrase text,
    no empty italics are written: on every line, every match wraps at least
    one character. *)
Theorem phrase_text_gives_no_empty_italics (italicsText rawLine : string) :
  buildItalicsRegex (buildItalicsList italicsText) = Ok None
  \/ exists re ms,
       buildItalicsRegex (buildItalicsList italicsText) = Ok (Some re)
       /\ matchAll re rawLine = Ok ms
       /\ italicizeLineWholeWords rawLine (Some re)
          = Ok (renderAll (segmentsOf rawLine 0 ms))
       /\ Forall (fun m => isEmpty (phrase m) = false) ms.
Proof.
  destruct (buildItalicsList italicsText) as [|p ps] eqn:E; [now left|]. right.
  rewrite buildItalicsRegex_compiled.
  eexists. destruct (matchAll_total
                       (mkRegExp (map (fun q => litTerms (replaceWsRuns false (trim q)))
                                      (sortLongestFirst (p :: ps)))) rawLine)
    as (ms & Hms).
  exists ms. split; [reflexivity|]. split; [exact Hms|]. split.
  - cbn [italicizeLineWholeWords]. rewrite Hms. cbn [bind].
    pose proof (italicize_fold_segmentsOf rawLine ms EmptyString 0) as H.
    destruct (fold_left (italicizeStep rawLine) ms (EmptyString, 0)) as [o l].
    now rewrite H.
  - apply (matchAllFrom_positive (p :: ps)) in Hms; [exact Hms|].
    rewrite <- E. unfold buildItalicsList. apply Forall_forall.
    intros q Hq. apply filter_In in Hq as (Hin & Hne).
    apply in_map_iff in Hin as (l & <- & _). rewrite trim_idem.
    now apply negb_true_iff in Hne.
Qed.

(** ** The order of the phrases *)

Lemma sortLongestFirst_stable (l : list string) (n : nat) :
  filter (hasLength n) (sortLongestFirst l) = filter (hasLength n) l.
Proof.
  induction l as [|a l IH]; [reflexivity|]. cbn [sortLongestFirst filter].
  now rewrite insertByLength_stable, IH.
Qed.

Lemma hasLength_self (s : string) : hasLength (String.length s) s = true.
Proof. apply Nat.eqb_refl. Qed.

(** Two longest-first lists that hold the same phrases of every length, in
    the same order, are the same list. *)
Lemma longest_first_unique (l1 : list string) :
  forall l2,
    LongestFirst l1 -> LongestFirst l2 ->
    (forall n, filter (hasLength n) l1 = filter (hasLength n) l2) ->
    l1 = l2.
Proof.
  induction l1 as [|a t1 IH]; intros l2 H1 H2 Hf.
  - destruct l2 as [|b t2]; [reflexivity|].
    specialize (Hf (String.length b)). cbn [filter] in Hf.
    rewrite hasLength_self in Hf. discriminate.
  - destruct l2 as [|b t2].
    + specialize (Hf (String.length a)). cbn [filter] in Hf.
      rewrite hasLength_self in Hf. discriminate.
    + inversion H1 as [|? ? Ht1 Ha]; subst. inversion H2 as [|? ? Ht2 Hb]; subst.
      rewrite Forall_forall in Ha, Hb.
      assert (Hlen : String.length a = String.length b).
      { assert (Hab : In a (b :: t2)).
        { apply (filter_In (hasLength (String.length a))).
          rewrite <- Hf. cbn [filter]. rewrite hasLength_self. now left. }
        assert (Hba : In b (a :: t1)).
        { apply (filter_In (hasLength (String.length b))).
          rewrite Hf. cbn [filter]. rewrite hasLength_self. now left. }
        destruct Hab as [->|Hab]; [reflexivity|].
        destruct Hba as [->|Hba]; [reflexivity|].
        specialize (Ha b Hba). specialize (Hb a Hab). lia. }
      pose proof (Hf (String.length a)) as Hn. cbn [filter] in Hn.
      assert (Hb' : hasLength (String.length a) b = true)
        by (rewrite Hlen; apply hasLength_self).
      rewrite hasLength_self, Hb' in Hn. injection Hn as Hab Hn. subst b.
      f_equal. apply IH; trivial. intros n. specialize (Hf n).
      cbn [filter] in Hf. destruct (hasLength n a); [now injection Hf | exact Hf].
Qed.

(** X19: the matcher builder keeps all the phrases, puts longer ones before
    shorter ones and leaves phrases of equal length in the order given; and
    that fixes the order: any arrangement with these properties is the one
    the builder uses. *)
Theorem phrase_order_is_the_stable_longest_first (phrases : list string) :
  Permutation (sortLongestFirst phrases) phrases
  /\ LongestFirst (sortLongestFirst phrases)
  /\ (forall n, filter (hasLength n) (sortLongestFirst phrases)
                = filter (hasLength n) phrases)
  /\ (forall l, LongestFirst l ->
                (forall n, filter (hasLength n) l = filter (hasLength n) phrases) ->
                l = sortLongestFirst phrases).
Proof.
  split; [apply sortLongestFirst_perm|]. split; [apply sortLongestFirst_sorted|].
  split; [intros n; apply sortLongestFirst_stable|].
  intros l Hl Hf. apply longest_first_unique; trivial.
  - apply sortLongestFirst_sorted.
  - intros n. now rewrite Hf, sortLongestFirst_stable.
Qed.

Lemma phrase_order_witness :
  ["abc"; "xyz"; "ab"; "a"] = sortLongestFirst ["a"; "abc"; "ab"; "xyz"].
Proof.
  apply (proj2 (proj2 (proj2
           (phrase_order_is_the_stable_longest_first ["a"; "abc"; "ab"; "xyz"])))).
  - repeat constructor.
  - intros n. do 4 (destruct n as [|n]; [reflexivity|]). reflexivity.
Defined.
